(** * Apriori frequent-itemset mining with closed and maximal reductions

    A shallow embedding of [src/apriori.py], [src/closed_itemsets.py] and
    [src/maximal_itemsets.py], and the properties of the mining engine.

    Modelling choices, all read off the Python source:
    - an item is any type with decidable equality that can be enumerated
      (Python: hashable); an itemset or a transaction is a [frozenset],
      here a [gset Item];
    - a [dict] from itemsets to counts is a [gmap (gset Item) Z]; a [set]
      of itemsets is a [gset (gset Item)]; iterating a set or a dict visits
      [elements] / [map_to_list], each element once, in some fixed order;
    - Python integers are [Z];
    - a subscript [d[k]] of a [dict] raises [KeyError] on a missing key and
      [l[i]] of a list raises [IndexError] out of range: a function that
      reads one answers in [outcome], which also has the exhaustion of the
      fuel of the [while] loop of [get_frequent_itemsets];
    - [min_support] is a Python float, an IEEE 754 binary64 number; a
      finite float is given by its exact value, a rational [Q]. The product
      [min_support * n_transactions] converts the integer to a float and
      multiplies in binary64: both steps return the exact result rounded
      to the nearest float, ties to the even significand
      ([binary64_round]), so that [0.3 * 10] is [3.0] although the float
      [0.3] lies below 3/10; [int] then truncates toward zero. Infinities
      and NaN, and a product that leaves the range of the finite floats
      (where [int] raises), are not modelled: they do not arise for a
      [min_support] between 0 and 1. *)

From Stdlib Require Import QArith Qround Qpower Lqa.
From Stdlib Require Floats.
From stdpp Require Import gmap sets list sorting strings.

Local Open Scope Z_scope.

(** ** Python helpers *)

Inductive exn : Type := KeyError | IndexError.

(** How a call ends: it returns a value, raises, or (for the model of a
    [while] loop) is cut short by the lack of fuel. *)
Inductive outcome (A : Type) : Type :=
  | Return (a : A)
  | Raise (e : exn)
  | OutOfFuel.

Arguments Return {A} a.
Arguments Raise {A} e.
Arguments OutOfFuel {A}.

#[export] Instance exn_eq_dec : EqDecision exn.
Proof. solve_decision. Defined.

#[export] Instance outcome_eq_dec {A : Type} `{EqDecision A} :
  EqDecision (outcome A).
Proof. solve_decision. Defined.

#[export] Instance outcome_bind : MBind outcome := λ A B f m,
  match m with
  | Return a => f a
  | Raise e => Raise e
  | OutOfFuel => OutOfFuel
  end.

(** [d[k]] *)
Definition getitem `{Countable K} {V : Type} (d : gmap K V) (k : K)
  : outcome V :=
  match d !! k with
  | Some v => Return v
  | None => Raise KeyError
  end.

(** [l[i]] for [i >= 0] *)
Definition index {A : Type} (l : list A) (i : nat) : outcome A :=
  match l !! i with
  | Some x => Return x
  | None => Raise IndexError
  end.

(** [for x in l: s = body(s, x)] for a body without [break]. *)
Fixpoint for_each {A S : Type} (l : list A) (body : S → A → outcome S)
    (s : S) : outcome S :=
  match l with
  | [] => Return s
  | x :: l' => s' ← body s x; for_each l' body s'
  end.

(** [int(q)]: truncation toward zero. *)
Definition py_int (q : Q) : Z := Z.quot (Qnum q) (Z.pos (Qden q)).

(** *** Python floats

    A float is a binary64 number: a significand of 53 bits times a power
    of two, the exponent of the last bit being at least -1074. A finite
    float is identified with its value in [Q]. *)

(** [2 ** k] *)
Definition pow2 (k : Z) : Q := (2 ^ k)%Q.

(** The binade of a positive rational: the [e] with
    [2 ** e <= q < 2 ** (e + 1)]. *)
Definition ilog2 (q : Q) : Z :=
  let d := Z.log2 (Qnum q) - Z.log2 (Z.pos (Qden q)) in
  if Qle_bool (pow2 d) q then d else d - 1.

(** The nearest integer, a tie going to the even one. *)
Definition round_half_even (q : Q) : Z :=
  let f := Qfloor q in
  match (q - inject_Z f ?= 1 # 2)%Q with
  | Lt => f
  | Gt => f + 1
  | Eq => if Z.even f then f else f + 1
  end.

(** The float nearest to a positive rational: in the binade [e] the
    floats are the multiples of [2 ** (e - 52)], and of [2 ** -1074]
    (the subnormal spacing) where that is larger. *)
Definition round_pos (q : Q) : Q :=
  let k := Z.max (ilog2 q - 52) (-1074) in
  (inject_Z (round_half_even (q / pow2 k)) * pow2 k)%Q.

(** Round to nearest, ties to even: the rounding of every binary64
    operation of Python. *)
Definition binary64_round (q : Q) : Q :=
  match Qnum q with
  | Z0 => 0%Q
  | Zpos _ => round_pos q
  | Zneg _ => (- round_pos (- q))%Q
  end.

(** [float(n)] of an integer, the conversion that [x * n] applies to an
    [int] operand. *)
Definition float_of_int (n : Z) : Q := binary64_round (inject_Z n).

(** [x * y] of two floats. *)
Definition float_mul (x y : Q) : Q := binary64_round (x * y).

(** The float that a decimal literal such as [0.3], or a command-line
    argument read by [float], denotes: the nearest one. *)
Definition float_literal (q : Q) : Q := binary64_round q.

(** [itertools.combinations(l, r)] for [r >= 0]: the [r]-element
    subsequences of [l], in lexicographic order of positions. *)
Fixpoint combinations {A : Type} (l : list A) (r : nat) : list (list A) :=
  match r with
  | O => [[]]
  | S r' =>
      match l with
      | [] => []
      | x :: l' => map (cons x) (combinations l' r') ++ combinations l' r
      end
  end.

Section apriori.
Context {Item : Type} `{Countable Item}.

Local Abbreviation Itemset := (gset Item).

(** *** [src/apriori.py] *)

Definition count_support (transactions : list Itemset)
    (itemsets : gset Itemset) : outcome (gmap Itemset Z) :=
  let support_counts := gset_to_gmap 0 itemsets in
  for_each transactions
    (λ support_counts transaction,
       for_each (elements itemsets)
         (λ support_counts itemset,
            if decide (itemset ⊆ transaction) then
              count ← getitem support_counts itemset;
              Return (<[itemset := count + 1]> support_counts)
            else Return support_counts)
         support_counts)
    support_counts.

(** The inner [for subset in combinations(union, k - 1)] loop with its
    [break]: the final value of [all_subsets_frequent]. *)
Fixpoint all_subsets_frequent (frequent_itemsets : gset Itemset)
    (subsets : list (list Item)) : bool :=
  match subsets with
  | [] => true
  | subset :: rest =>
      if decide (list_to_set subset ∉ frequent_itemsets) then false
      else all_subsets_frequent frequent_itemsets rest
  end.

(** The body of the loop over [j], for [itemsets_list[i] = x] and
    [itemsets_list[j] = y]. The test [len(union) == k] passes for no
    [k < 1] (two different sets have a non-empty union), so [k - 1] is
    never negative where [combinations] is called. *)
Definition join (frequent_itemsets : gset Itemset) (k : nat) (x : Itemset)
    (candidates : gset Itemset) (y : Itemset) : gset Itemset :=
  let union := x ∪ y in
  if decide (size union = k) then
    if all_subsets_frequent frequent_itemsets
         (combinations (elements union) (k - 1))
    then {[union]} ∪ candidates
    else candidates
  else candidates.

(** The loops over [i] and [j > i]. *)
Fixpoint join_pairs (frequent_itemsets : gset Itemset) (k : nat)
    (itemsets_list : list Itemset) (candidates : gset Itemset)
  : gset Itemset :=
  match itemsets_list with
  | [] => candidates
  | x :: rest =>
      join_pairs frequent_itemsets k rest
        (foldl (join frequent_itemsets k x) candidates rest)
  end.

Definition generate_candidates (frequent_itemsets : gset Itemset) (k : nat)
  : gset Itemset :=
  join_pairs frequent_itemsets k (elements frequent_itemsets) ∅.

(** [int(min_support * n_transactions)], the product being the float
    product of [min_support] and [float(n_transactions)]. *)
Definition min_support_count_of (min_support : Q) (n_transactions : nat)
  : Z :=
  py_int (float_mul min_support (float_of_int (Z.of_nat n_transactions))).

(** [{itemset for itemset, count in support_counts.items()
      if count >= min_support_count}] *)
Definition keep_frequent (support_counts : gmap Itemset Z)
    (min_support_count : Z) : gset Itemset :=
  dom (filter (λ ic, min_support_count ≤ ic.2) support_counts).

(** [for itemset in current_frequent:
       frequent_itemsets[itemset] = support_counts[itemset]] *)
Definition record_level (current_frequent : gset Itemset)
    (support_counts frequent_itemsets : gmap Itemset Z)
  : outcome (gmap Itemset Z) :=
  for_each (elements current_frequent)
    (λ frequent_itemsets itemset,
       count ← getitem support_counts itemset;
       Return (<[itemset := count]> frequent_itemsets))
    frequent_itemsets.

(** The [while current_frequent:] loop. *)
Fixpoint level_loop (fuel : nat) (transactions : list Itemset)
    (min_support_count : Z) (current_frequent : gset Itemset) (k : nat)
    (frequent_itemsets : gmap Itemset Z) : outcome (gmap Itemset Z) :=
  match fuel with
  | O => OutOfFuel
  | S fuel =>
      if decide (current_frequent = ∅) then Return frequent_itemsets
      else
        let candidates := generate_candidates current_frequent k in
        if decide (candidates = ∅) then Return frequent_itemsets
        else
          support_counts ← count_support transactions candidates;
          let current_frequent :=
            keep_frequent support_counts min_support_count in
          frequent_itemsets ←
            record_level current_frequent support_counts frequent_itemsets;
          level_loop fuel transactions min_support_count current_frequent
            (S k) frequent_itemsets
  end.

(** [all_items]: the union of the transactions. *)
Definition all_items (transactions : list Itemset) : Itemset :=
  foldl (λ all_items transaction, all_items ∪ transaction) ∅ transactions.

Definition get_frequent_itemsets (fuel : nat) (transactions : list Itemset)
    (min_support : Q) : outcome (gmap Itemset Z) :=
  let n_transactions := length transactions in
  let min_support_count := min_support_count_of min_support n_transactions in
  let single_itemsets : gset Itemset :=
    set_map (λ item, {[item]}) (all_items transactions) in
  support_counts ← count_support transactions single_itemsets;
  let current_frequent := keep_frequent support_counts min_support_count in
  frequent_itemsets ← record_level current_frequent support_counts ∅;
  level_loop fuel transactions min_support_count current_frequent 2
    frequent_itemsets.

(** The call returns [M]: the loop exits, and the call returns [M],
    whenever it is given enough fuel. *)
Definition returns (transactions : list Itemset) (min_support : Q)
    (M : gmap Itemset Z) : Prop :=
  ∃ fuel0, ∀ fuel, (fuel0 ≤ fuel)%nat →
    get_frequent_itemsets fuel transactions min_support = Return M.

(** *** [src/closed_itemsets.py] and [src/maximal_itemsets.py] *)

(** [for itemset in frequent_itemsets]: the keys of the dict, each once. *)
Definition keys (frequent_itemsets : gmap Itemset Z) : list Itemset :=
  (map_to_list frequent_itemsets).*1.

(** [itemsets_by_size[len(itemset)].append(itemset)] for every key, on a
    [defaultdict(list)]: a missing size reads as the empty list. *)
Definition group_by_size (itemsets : list Itemset)
  : gmap nat (list Itemset) :=
  foldl (λ itemsets_by_size itemset,
           <[size itemset :=
               itemsets_by_size !!! size itemset ++ [itemset]]>
             itemsets_by_size)
        ∅ itemsets.

(** [sorted(itemsets_by_size.keys(), reverse=True)] *)
Definition sizes_of (itemsets_by_size : gmap nat (list Itemset))
  : list nat :=
  merge_sort (flip (≤)%nat) (map_to_list itemsets_by_size).*1.

(** The loop over [other_itemset] of [find_closed_itemsets]: [true] when
    it breaks with [is_closed = False]. *)
Fixpoint same_support_superset (frequent_itemsets : gmap Itemset Z)
    (itemset : Itemset) (support : Z) (others : list Itemset)
  : outcome bool :=
  match others with
  | [] => Return false
  | other_itemset :: rest =>
      if decide (itemset ⊂ other_itemset) then
        other_support ← getitem frequent_itemsets other_itemset;
        if decide (other_support = support) then Return true
        else same_support_superset frequent_itemsets itemset support rest
      else same_support_superset frequent_itemsets itemset support rest
  end.

(** The loop over [larger_size] of [find_closed_itemsets]: the final value
    of [is_closed]. *)
Fixpoint is_closed (frequent_itemsets : gmap Itemset Z)
    (itemsets_by_size : gmap nat (list Itemset)) (itemset : Itemset)
    (support : Z) (size : nat) (sizes : list nat) : outcome bool :=
  match sizes with
  | [] => Return true
  | larger_size :: rest =>
      if decide (larger_size ≤ size)%nat then Return true
      else
        found ← same_support_superset frequent_itemsets itemset support
                  (itemsets_by_size !!! larger_size);
        if found : bool then Return false
        else is_closed frequent_itemsets itemsets_by_size itemset support
               size rest
  end.

Definition find_closed_itemsets (frequent_itemsets : gmap Itemset Z)
  : outcome (gmap Itemset Z) :=
  if decide (frequent_itemsets = ∅) then Return ∅
  else
    let itemsets_by_size := group_by_size (keys frequent_itemsets) in
    let sizes := sizes_of itemsets_by_size in
    for_each sizes
      (λ closed_itemsets size,
         for_each (itemsets_by_size !!! size)
           (λ closed_itemsets itemset,
              support ← getitem frequent_itemsets itemset;
              closed ← is_closed frequent_itemsets itemsets_by_size
                         itemset support size sizes;
              if closed : bool
              then Return (<[itemset := support]> closed_itemsets)
              else Return closed_itemsets)
           closed_itemsets)
      ∅.

(** The loop over [other_itemset] of [find_maximal_itemsets]: [true] when
    it breaks with [is_maximal = False]. *)
Fixpoint has_superset (itemset : Itemset) (others : list Itemset) : bool :=
  match others with
  | [] => false
  | other_itemset :: rest =>
      if decide (itemset ⊂ other_itemset) then true
      else has_superset itemset rest
  end.

(** The loop over [larger_size] of [find_maximal_itemsets]: the final
    value of [is_maximal]. *)
Fixpoint is_maximal (itemsets_by_size : gmap nat (list Itemset))
    (itemset : Itemset) (size : nat) (sizes : list nat) : bool :=
  match sizes with
  | [] => true
  | larger_size :: rest =>
      if decide (larger_size ≤ size)%nat then true
      else if has_superset itemset (itemsets_by_size !!! larger_size)
      then false
      else is_maximal itemsets_by_size itemset size rest
  end.

Definition find_maximal_itemsets (frequent_itemsets : gmap Itemset Z)
  : outcome (list Itemset) :=
  if decide (frequent_itemsets = ∅) then Return []
  else
    let itemsets_by_size := group_by_size (keys frequent_itemsets) in
    let sizes := sizes_of itemsets_by_size in
    max_size ← index sizes 0;
    Return
      (foldl (λ maximal_itemsets size,
                foldl (λ maximal_itemsets itemset,
                         if is_maximal itemsets_by_size itemset size sizes
                         then maximal_itemsets ++ [itemset]
                         else maximal_itemsets)
                      maximal_itemsets (itemsets_by_size !!! size))
             [] sizes).

(** ** Notions of the specification *)

(** [c] is eligible at size [k] over [F]: it has [k] items and every
    subset of [k - 1] of them is in [F]. *)
Definition eligible (F : gset Itemset) (k : nat) (c : Itemset) : Prop :=
  size c = k ∧ ∀ Y, Y ⊆ c → size Y = (k - 1)%nat → Y ∈ F.

(** The support count of [X]: the number of transactions that contain it. *)
Definition support (transactions : list Itemset) (X : Itemset) : Z :=
  Z.of_nat (length (filter (λ transaction, X ⊆ transaction) transactions)).

(** [sc] maps exactly the itemsets of [S], each to its support count. *)
Definition counts (T : list Itemset) (S : gset Itemset)
    (sc : gmap Itemset Z) : Prop :=
  ∀ X, sc !! X = if decide (X ∈ S) then Some (support T X) else None.

(** [X] is a non-empty set of items of the transactions whose support
    count reaches the threshold. *)
Definition frequent (transactions : list Itemset) (threshold : Z)
    (X : Itemset) : Prop :=
  X ≠ ∅ ∧ X ⊆ all_items transactions ∧ threshold ≤ support transactions X.

(** No key of [M] is a proper superset of [X] with the support [c]. *)
Definition closed_in (M : gmap Itemset Z) (X : Itemset) (c : Z) : Prop :=
  ∀ Y, X ⊂ Y → M !! Y ≠ Some c.

(** No key of [M] is a proper superset of [X]. *)
Definition maximal_in (M : gmap Itemset Z) (X : Itemset) : Prop :=
  ∀ Y, X ⊂ Y → M !! Y = None.

End apriori.

(** *** [src/data_loader.py] *)

(** [get_unique_items]: [unique_items.update(transaction)] for every
    transaction. *)
Definition get_unique_items {Item : Type} `{Countable Item}
    (transactions : list (gset Item)) : gset Item :=
  foldl (λ unique_items transaction, unique_items ∪ transaction)
        ∅ transactions.

(** The loaders read a text file. A file that can be opened is the list of
    its lines, as iterating over it yields them; item labels are strings.
    The methods of Python's [str] that the loaders call are parameters:
    [strip s] is [s.strip()], [split s sep] is [s.split(sep)],
    [remove_cr s] is [s.replace('\r', '')] and [contains sub s] is
    [sub in s]. *)
Section data_loader.
Variable strip : string → string.
Variable split : string → string → list string.
Variable remove_cr : string → string.
Variable contains : string → string → bool.

(** [f.readline()] on the first read of a file: its first line, or the
    empty string at the end of the file. *)
Definition readline (file : list string) : string := hd ""%string file.

(** [limit is not None and i >= limit] *)
Definition limit_reached (limit : option Z) (i : nat) : bool :=
  match limit with
  | Some limit => bool_decide (limit ≤ Z.of_nat i)
  | None => false
  end.

(** The body of the loop of [_load_item_list] below its [break]. *)
Definition item_list_row (delimiter line : string)
    (transactions : list (gset string)) : list (gset string) :=
  let items := map strip (split (strip line) delimiter) in
  let items := filter (λ item, item ≠ ""%string) items in
  match items with
  | [] => transactions
  | _ => transactions ++ [list_to_set items]
  end.

(** [for i, line in enumerate(f)] of [_load_item_list], from line [i] on. *)
Fixpoint item_list_loop (delimiter : string) (limit : option Z)
    (lines : list string) (i : nat) (transactions : list (gset string))
  : list (gset string) :=
  match lines with
  | [] => transactions
  | line :: rest =>
      if limit_reached limit i then transactions
      else item_list_loop delimiter limit rest (S i)
             (item_list_row delimiter line transactions)
  end.

(** [if header: f.readline()] holds for [True] only. *)
Definition _load_item_list (file : list string) (delimiter : string)
    (limit : option Z) (header : option bool) : list (gset string) :=
  let lines := if header is Some true then tail file else file in
  item_list_loop delimiter limit lines 0 [].

(** [for idx, value in enumerate(values)] of [_load_binary_matrix], from
    column [idx] on. *)
Fixpoint binary_row_items (item_names values : list string) (idx : nat)
    (items : list string) : outcome (list string) :=
  match values with
  | [] => Return items
  | value :: rest =>
      if bool_decide (value = "1"%string)
         && bool_decide (idx < length item_names)%nat
      then
        name ← index item_names idx;
        binary_row_items item_names rest (S idx) (items ++ [name])
      else binary_row_items item_names rest (S idx) items
  end.

(** [for i, line in enumerate(f)] of [_load_binary_matrix], from line [i]
    on. *)
Fixpoint binary_matrix_loop (delimiter : string) (limit : option Z)
    (item_names lines : list string) (i : nat)
    (transactions : list (gset string)) : outcome (list (gset string)) :=
  match lines with
  | [] => Return transactions
  | line :: rest =>
      if limit_reached limit i then Return transactions
      else
        let line := remove_cr (strip line) in
        if bool_decide (line = ""%string) then
          binary_matrix_loop delimiter limit item_names rest (S i)
            transactions
        else
          let values := map strip (split line delimiter) in
          items ← binary_row_items item_names values 0 [];
          let transactions :=
            match items with
            | [] => transactions
            | _ => transactions ++ [list_to_set items]
            end in
          binary_matrix_loop delimiter limit item_names rest (S i)
            transactions
  end.

Definition _load_binary_matrix (file : list string) (delimiter : string)
    (limit : option Z) : outcome (list (gset string)) :=
  let header_line := strip (readline file) in
  let header_line := remove_cr header_line in
  let item_names := map strip (split header_line delimiter) in
  binary_matrix_loop delimiter limit item_names (tail file) 0 [].

Definition _detect_binary_format (file : list string) (delimiter : string)
  : bool :=
  let second_line := strip (readline (tail file)) in
  if bool_decide (second_line = ""%string) then false
  else
    let values := map strip (split second_line delimiter) in
    forallb (λ v, bool_decide (v = "0"%string ∨ v = "1"%string))
            (filter (λ v, v ≠ ""%string) values).

Definition load_transactions (file : list string) (limit : option Z)
    (header : option bool) : outcome (list (gset string)) :=
  let first_line := strip (readline file) in
  let delimiter := if contains ";" first_line then ";" else ","%string in
  let is_binary_format := _detect_binary_format file delimiter in
  if is_binary_format then _load_binary_matrix file delimiter limit
  else Return (_load_item_list file delimiter limit header).

(** The items of a row: the names of the header at the columns where the
    row has a 1. *)
Definition row_items (item_names values : list string) (t : gset string)
  : Prop :=
  ∀ name, name ∈ t
          ↔ ∃ idx, values !! idx = Some "1"%string
                   ∧ item_names !! idx = Some name.

(** The transactions that the loop of [_load_binary_matrix] adds: one for each line that is not
    blank and has a 1 under a name. *)
Definition binary_rows (delimiter : string) (item_names lines : list string)
    (more : list (gset string)) : Prop :=
  (length more ≤ length lines)%nat
  ∧ ∀ t, t ∈ more →
      t ≠ ∅
      ∧ ∃ line, line ∈ lines
          ∧ row_items item_names
              (map strip (split (remove_cr (strip line)) delimiter)) t.

End data_loader.

(** ** Concrete inputs *)

(** Scenario A of the specification. *)
Definition scenario_a : list (gset string) :=
  [ {["a"; "b"]}; {["a"; "b"; "c"]}; {["a"]}; {["b"; "c"]} ]%string.

(** Two transactions without a common item. *)
Definition disjoint_pair : list (gset string) :=
  [ {["a"]}; {["b"]} ]%string.

(** Ten transactions: [{a}] twice and [{b}] eight times. *)
Definition two_a_eight_b : list (gset string) :=
  [ {["a"]}; {["a"]}; {["b"]}; {["b"]}; {["b"]}; {["b"]}; {["b"]};
    {["b"]}; {["b"]}; {["b"]} ]%string.

(** The binary64 numbers of the machine, Rocq's primitive floats, for a
    comparison of [binary64_round] with the hardware: the value of a
    finite one, the float of a small non-negative integer, the literal
    [a / b] and its product with an integer. *)
Definition value_of_float (f : PrimFloat.float) : option Q :=
  match FloatOps.Prim2SF f with
  | SpecFloat.S754_zero _ => Some 0%Q
  | SpecFloat.S754_finite sign m e =>
      Some ((if sign then -1 else 1) * inject_Z (Z.pos m) * pow2 e)%Q
  | _ => None
  end.

Definition machine_int (n : Z) : PrimFloat.float :=
  PrimFloat.of_uint63 (Uint63.of_Z n).

Definition machine_literal (a b : Z) : PrimFloat.float :=
  PrimFloat.div (machine_int a) (machine_int b).

Definition same_value (f : PrimFloat.float) (q : Q) : bool :=
  match value_of_float f with
  | Some v => Qeq_bool v q
  | None => false
  end.

(** On the literal [a / b] and the integer [n], the machine and the model
    agree on the literal, on [float(n)] and on the product. *)
Definition machine_agrees (abn : Z * Z * Z) : bool :=
  let '(a, b, n) := abn in
  same_value (machine_literal a b) (float_literal (a # Z.to_pos b))
  && same_value (machine_int n) (float_of_int n)
  && same_value (PrimFloat.mul (machine_literal a b) (machine_int n))
       (float_mul (float_literal (a # Z.to_pos b)) (float_of_int n)).

(** The single itemsets [{a}] and [{b}]. *)
Definition pair_of_singletons : gset (gset string) :=
  {[ {["a"]}; {["b"]} ]}%string.


(** Python's [str] methods on ASCII text, to run the loaders: [isspace]
    holds of the space, of the characters 9 to 13 and of 28 to 31. *)
Definition ascii_isspace (c : Ascii.ascii) : bool :=
  let n := Ascii.nat_of_ascii c in
  (n =? 32)%nat || ((9 <=? n)%nat && (n <=? 13)%nat)
  || ((28 <=? n)%nat && (n <=? 31)%nat).

Fixpoint ascii_lstrip (s : string) : string :=
  match s with
  | EmptyString => EmptyString
  | String c s' => if ascii_isspace c then ascii_lstrip s' else s
  end.

Fixpoint string_rev_onto (s acc : string) : string :=
  match s with
  | EmptyString => acc
  | String c s' => string_rev_onto s' (String c acc)
  end.

Definition ascii_strip (s : string) : string :=
  let s := ascii_lstrip s in
  string_rev_onto (ascii_lstrip (string_rev_onto s EmptyString)) EmptyString.

(** [s.split(sep)] for a separator [sep] of one character, as the loaders
    call it (with [;] or [,]). *)
Fixpoint split_cells (sep : Ascii.ascii) (s : string) (cell : string)
  : list string :=
  match s with
  | EmptyString => [string_rev_onto cell EmptyString]
  | String c s' =>
      if Ascii.eqb c sep
      then string_rev_onto cell EmptyString :: split_cells sep s' EmptyString
      else split_cells sep s' (String c cell)
  end.

Definition ascii_split (s sep : string) : list string :=
  match sep with
  | String c EmptyString => split_cells c s EmptyString
  | _ => [s]
  end.

Fixpoint ascii_remove_cr (s : string) : string :=
  match s with
  | EmptyString => EmptyString
  | String c s' =>
      if Ascii.eqb c (Ascii.ascii_of_nat 13) then ascii_remove_cr s'
      else String c (ascii_remove_cr s')
  end.

Fixpoint ascii_contains (sub s : string) : bool :=
  String.prefix sub s
  || match s with
     | EmptyString => false
     | String _ s' => ascii_contains sub s'
     end.

(** The line feed. *)
Definition nl : string := String (Ascii.ascii_of_nat 10) EmptyString.

(** A file in the item-list format and one in the binary-matrix format,
    with a blank line and a line without a 1. *)
Definition item_list_file : list string :=
  [ "a, b" ++ nl; nl; " b ,c,, " ++ nl; "a" ]%string.

Definition binary_matrix_file : list string :=
  [ "a,b,c" ++ nl; "1,1,0" ++ nl; nl; "0,0,0" ++ nl;
    "0,1,1,1" ]%string.

(** * Proofs *)

(** ** [combinations] *)

(** [combinations l r] lists exactly the subsequences of [l] of length [r]. *)
Lemma elem_of_combinations {A : Type} (l c : list A) (r : nat) :
  c ∈ combinations l r ↔ sublist c l ∧ length c = r.
Proof.
  revert r c. induction l as [|x l IH]; intros [|r] c; simpl.
  - rewrite list_elem_of_singleton. split.
    + intros ->. split; [constructor|done].
    + intros [_ Hlen]. by apply nil_length_inv.
  - split; [by intros ?%not_elem_of_nil|].
    intros [Hsub Hlen]. apply sublist_nil_r in Hsub. by subst.
  - rewrite list_elem_of_singleton. split.
    + intros ->. split; [apply sublist_nil_l|done].
    + intros [_ Hlen]. by apply nil_length_inv.
  - rewrite elem_of_app, list_elem_of_fmap, sublist_cons_r. split.
    + intros [(c' & -> & Hc')|Hc].
      * apply IH in Hc' as [Hsub Hlen]. split; [|by simpl; f_equal].
        right. by exists c'.
      * apply IH in Hc as [Hsub Hlen]. split; [by left|done].
    + intros [[Hsub|(c' & -> & Hsub)] Hlen].
      * right. by apply IH.
      * left. exists c'. split; [done|]. apply IH. split; [done|].
        simpl in Hlen. lia.
Qed.

(** ** Truncation toward zero *)

Lemma Qnum_nonneg (q : Q) : (0 <= q)%Q ↔ 0 ≤ Qnum q.
Proof. unfold Qle. simpl. lia. Qed.

Lemma Qnum_nonpos (q : Q) : (q <= 0)%Q ↔ Qnum q ≤ 0.
Proof. unfold Qle. simpl. lia. Qed.

(** On a non-negative number [int] is the floor. *)
Lemma py_int_nonneg (q : Q) : (0 <= q)%Q → py_int q = Qfloor q.
Proof.
  intros Hq%Qnum_nonneg. unfold py_int. destruct q as [n d]. simpl in *.
  apply Z.quot_div_nonneg; lia.
Qed.

(** On a non-positive number [int] is the ceiling. *)
Lemma py_int_nonpos (q : Q) : (q <= 0)%Q → py_int q = Qceiling q.
Proof.
  intros Hq%Qnum_nonpos. unfold py_int, Qceiling.
  destruct q as [n d]. simpl in *.
  rewrite <- (Z.opp_involutive n) at 1. rewrite Z.quot_opp_l by lia.
  f_equal. apply Z.quot_div_nonneg; lia.
Qed.

Lemma Qceiling_nonpos (q : Q) : (q <= 0)%Q → Qceiling q ≤ 0.
Proof.
  intros Hq. replace 0 with (Qceiling 0) by done. by apply Qceiling_resp_le.
Qed.

Lemma Qfloor_nonneg (q : Q) : (0 <= q)%Q → 0 ≤ Qfloor q.
Proof.
  intros Hq. replace 0 with (Qfloor 0) by done. by apply Qfloor_resp_le.
Qed.

Lemma py_int_mono (q1 q2 : Q) : (q1 <= q2)%Q → py_int q1 ≤ py_int q2.
Proof.
  intros Hle.
  destruct (Qlt_le_dec q1 0) as [H1|H1], (Qlt_le_dec q2 0) as [H2|H2].
  - rewrite !py_int_nonpos by (by apply Qlt_le_weak).
    by apply Qceiling_resp_le.
  - rewrite py_int_nonpos by (by apply Qlt_le_weak).
    rewrite py_int_nonneg by done.
    pose proof (Qceiling_nonpos q1 (Qlt_le_weak _ _ H1)).
    pose proof (Qfloor_nonneg q2 H2). lia.
  - exfalso. apply (Qlt_irrefl 0). eapply Qle_lt_trans; [exact H1|].
    eapply Qle_lt_trans; [exact Hle|done].
  - rewrite !py_int_nonneg by done. by apply Qfloor_resp_le.
Qed.

(** Against a count, which is not negative, the truncation and the floor
    compare alike. *)
Lemma py_int_le_iff_floor (q : Q) (c : Z) :
  0 ≤ c → py_int q ≤ c ↔ Qfloor q ≤ c.
Proof.
  intros Hc. destruct (Qlt_le_dec q 0) as [Hq|Hq].
  - apply Qlt_le_weak in Hq. rewrite py_int_nonpos by done.
    pose proof (Qceiling_nonpos q Hq).
    assert (Qfloor q ≤ 0).
    { replace 0 with (Qfloor 0) by done. by apply Qfloor_resp_le. }
    lia.
  - by rewrite py_int_nonneg.
Qed.

(** ** Rounding to binary64 *)

Lemma pow2_pos k : (0 < pow2 k)%Q.
Proof. by apply Qpower_0_lt. Qed.

Lemma pow2_add a b : (pow2 (a + b) == pow2 a * pow2 b)%Q.
Proof. by apply Qpower_plus. Qed.

Lemma pow2_le a b : a ≤ b → (pow2 a <= pow2 b)%Q.
Proof. intros. by apply Qpower_le_compat_l. Qed.

Lemma pow2_lt_inv a b : (pow2 a < pow2 b)%Q → a < b.
Proof. intros. by apply (Qpower_lt_compat_l_inv 2). Qed.

Lemma pow2_Z k : 0 ≤ k → (pow2 k == inject_Z (2 ^ k))%Q.
Proof. intros. unfold pow2. by rewrite Zpower_Qpower. Qed.

Lemma ilog2_spec q :
  (0 < q)%Q → (pow2 (ilog2 q) <= q)%Q ∧ (q < pow2 (ilog2 q + 1))%Q.
Proof.
  intros Hq. destruct q as [a b].
  assert (Ha : 0 < a) by (unfold Qlt in Hq; simpl in Hq; lia).
  unfold ilog2. simpl Qnum. simpl Qden.
  set (la := Z.log2 a). set (lb := Z.log2 (Z.pos b)).
  destruct (Z.log2_spec a Ha) as [Ha1 Ha2].
  destruct (Z.log2_spec (Z.pos b)) as [Hb1 Hb2]; [lia|].
  fold la in Ha1, Ha2. fold lb in Hb1, Hb2.
  assert (Hla : 0 ≤ la) by apply Z.log2_nonneg.
  assert (Hlb : 0 ≤ lb) by apply Z.log2_nonneg.
  assert (HA1 : (pow2 la <= inject_Z a)%Q).
  { rewrite pow2_Z by done. by rewrite <- Zle_Qle. }
  assert (HA2 : (inject_Z a < pow2 (la + 1))%Q).
  { rewrite pow2_Z by lia. rewrite <- Zlt_Qlt. by rewrite Z.add_1_r. }
  assert (HB1 : (pow2 lb <= inject_Z (Z.pos b))%Q).
  { rewrite pow2_Z by done. by rewrite <- Zle_Qle. }
  assert (HB2 : (inject_Z (Z.pos b) < pow2 (lb + 1))%Q).
  { rewrite pow2_Z by lia. rewrite <- Zlt_Qlt. by rewrite Z.add_1_r. }
  assert (Hmul : ((a # b) * inject_Z (Z.pos b) == inject_Z a)%Q).
  { unfold Qeq, Qmult, inject_Z. simpl. lia. }
  assert (HB : (0 < inject_Z (Z.pos b))%Q) by done.
  destruct (Qle_bool (pow2 (la - lb)) (a # b)) eqn:E.
  - apply Qle_bool_iff in E. split; [done|].
    pose proof (pow2_add (la - lb + 1) lb) as Hadd.
    replace (la - lb + 1 + lb) with (la + 1) in Hadd by lia.
    pose proof (pow2_pos (la - lb + 1)) as HP.
    apply Qnot_le_lt. intros Hge.
    assert (pow2 (la - lb + 1) * pow2 lb <= (a # b) * inject_Z (Z.pos b))%Q.
    { apply Qle_trans with (pow2 (la - lb + 1) * inject_Z (Z.pos b))%Q.
      - apply Qmult_le_l; done.
      - apply Qmult_le_r; done. }
    lra.
  - assert (Hlt : (a # b < pow2 (la - lb))%Q).
    { apply Qnot_le_lt. intros Hle%Qle_bool_iff. congruence. }
    split; [|by replace (la - lb - 1 + 1) with (la - lb) by lia].
    pose proof (pow2_add (la - lb - 1) (lb + 1)) as Hadd.
    replace (la - lb - 1 + (lb + 1)) with la in Hadd by lia.
    pose proof (pow2_pos (la - lb - 1)) as HP.
    apply Qnot_lt_le. intros Hgt.
    assert ((a # b) * inject_Z (Z.pos b) < pow2 (la - lb - 1) * pow2 (lb + 1))%Q.
    { apply Qle_lt_trans with (pow2 (la - lb - 1) * inject_Z (Z.pos b))%Q.
      - apply Qmult_le_r; [done|]. by apply Qlt_le_weak.
      - apply Qmult_lt_l; done. }
    lra.
Qed.

Lemma ilog2_mono x y : (0 < x)%Q → (x <= y)%Q → ilog2 x ≤ ilog2 y.
Proof.
  intros Hx Hxy.
  destruct (ilog2_spec x Hx) as [Hx1 _].
  destruct (ilog2_spec y) as [_ Hy2]; [lra|].
  assert (ilog2 x < ilog2 y + 1); [|lia].
  apply pow2_lt_inv. lra.
Qed.

Lemma round_half_even_bounds q :
  Qfloor q ≤ round_half_even q ≤ Qfloor q + 1.
Proof.
  unfold round_half_even.
  destruct (_ ?= _)%Q; [destruct (Z.even _)|..]; lia.
Qed.

(** The rounded integer is within a half of the rational. *)
Lemma round_half_even_nearest q :
  (inject_Z (round_half_even q) - (1 # 2) <= q)%Q
  ∧ (q <= inject_Z (round_half_even q) + (1 # 2))%Q.
Proof.
  pose proof (Qfloor_le q) as Hlo. pose proof (Qlt_floor q) as Hhi.
  rewrite inject_Z_plus in Hhi. change (inject_Z 1) with 1%Q in Hhi.
  unfold round_half_even.
  destruct (q - inject_Z (Qfloor q) ?= 1 # 2)%Q eqn:E;
    first [apply Qeq_alt in E|apply Qlt_alt in E|apply Qgt_alt in E];
    try destruct (Z.even (Qfloor q));
    rewrite ?inject_Z_plus; change (inject_Z 1) with 1%Q; split; lra.
Qed.

Lemma round_half_even_mono x y :
  (x <= y)%Q → round_half_even x ≤ round_half_even y.
Proof.
  intros Hxy. pose proof (Qfloor_resp_le _ _ Hxy) as Hf.
  destruct (decide (Qfloor x = Qfloor y)) as [Heq|Hne].
  - unfold round_half_even. rewrite <- Heq.
    destruct (x - inject_Z (Qfloor x) ?= 1 # 2)%Q eqn:Ex;
      destruct (y - inject_Z (Qfloor x) ?= 1 # 2)%Q eqn:Ey;
      try (destruct (Z.even (Qfloor x))); try lia;
      first [apply Qeq_alt in Ex|apply Qlt_alt in Ex|apply Qgt_alt in Ex];
      first [apply Qeq_alt in Ey|apply Qlt_alt in Ey|apply Qgt_alt in Ey];
      lra.
  - pose proof (round_half_even_bounds x). pose proof (round_half_even_bounds y).
    lia.
Qed.

Lemma round_half_even_Z z : round_half_even (inject_Z z) = z.
Proof.
  unfold round_half_even. rewrite Qfloor_Z.
  assert ((inject_Z z - inject_Z z ?= 1 # 2)%Q = Lt) as ->; [|done].
  apply (proj1 (Qlt_alt _ _)). lra.
Qed.

Lemma round_half_even_ge z q : (inject_Z z <= q)%Q → z ≤ round_half_even q.
Proof.
  intros Hle%round_half_even_mono. by rewrite round_half_even_Z in Hle.
Qed.

Lemma round_half_even_le z q : (q <= inject_Z z)%Q → round_half_even q ≤ z.
Proof.
  intros Hle%round_half_even_mono. by rewrite round_half_even_Z in Hle.
Qed.

Lemma round_pos_nonneg q : (0 < q)%Q → (0 <= round_pos q)%Q.
Proof.
  intros Hq. unfold round_pos.
  set (k := Z.max _ _). pose proof (pow2_pos k) as Hk.
  apply Qmult_le_0_compat; [|lra].
  change 0%Q with (inject_Z 0). rewrite <- Zle_Qle.
  apply round_half_even_ge. change (inject_Z 0) with 0%Q.
  apply Qle_shift_div_l; [done|]. lra.
Qed.

(** The float returned is a multiple of the spacing of the binade, and
    within half a spacing of the rational. *)
Lemma round_pos_nearest q :
  (0 < q)%Q →
  (round_pos q - pow2 (Z.max (ilog2 q - 52) (-1074)) * (1 # 2) <= q)%Q
  ∧ (q <= round_pos q + pow2 (Z.max (ilog2 q - 52) (-1074)) * (1 # 2))%Q.
Proof.
  intros Hq. unfold round_pos. set (k := Z.max _ _).
  pose proof (pow2_pos k) as Hk.
  destruct (round_half_even_nearest (q / pow2 k)) as [Hlo Hhi].
  set (r := inject_Z (round_half_even (q / pow2 k))) in *.
  assert (Hdiv : (q / pow2 k * pow2 k == q)%Q).
  { unfold Qdiv. rewrite <- Qmult_assoc, (Qmult_comm (/ pow2 k)).
    rewrite Qmult_inv_r by lra. apply Qmult_1_r. }
  apply (Qmult_le_compat_r _ _ (pow2 k)) in Hlo; [|lra].
  apply (Qmult_le_compat_r _ _ (pow2 k)) in Hhi; [|lra].
  rewrite Hdiv in Hlo, Hhi. split; lra.
Qed.

Lemma round_pos_mono x y :
  (0 < x)%Q → (x <= y)%Q → (round_pos x <= round_pos y)%Q.
Proof.
  intros Hx Hxy. assert (Hy : (0 < y)%Q) by lra.
  pose proof (ilog2_mono x y Hx Hxy) as He.
  destruct (ilog2_spec x Hx) as [_ Hx2].
  destruct (ilog2_spec y Hy) as [Hy1 _].
  unfold round_pos.
  set (kx := Z.max (ilog2 x - 52) (-1074)).
  set (ky := Z.max (ilog2 y - 52) (-1074)).
  pose proof (pow2_pos kx) as Hkx. pose proof (pow2_pos ky) as Hky.
  destruct (decide (kx = ky)) as [Heq|Hne].
  - rewrite <- Heq. apply Qmult_le_r; [done|]. rewrite <- Zle_Qle.
    apply round_half_even_mono. apply Qmult_le_r; [|done].
    by apply Qinv_lt_0_compat.
  - assert (Hky_eq : ky = ilog2 y - 52) by lia.
    assert (Hlt : ilog2 x + 1 ≤ ilog2 y) by lia.
    apply Qle_trans with (pow2 (ilog2 y)).
    + pose proof (pow2_add (ilog2 y - kx) kx) as Hadd.
      replace (ilog2 y - kx + kx) with (ilog2 y) in Hadd by lia.
      rewrite Hadd. apply Qmult_le_r; [done|].
      rewrite (pow2_Z (ilog2 y - kx)) by lia. rewrite <- Zle_Qle.
      apply round_half_even_le. rewrite <- pow2_Z by lia.
      apply Qle_shift_div_r; [done|]. rewrite <- Hadd.
      pose proof (pow2_le _ _ Hlt). lra.
    + pose proof (pow2_add 52 ky) as Hadd.
      replace (52 + ky) with (ilog2 y) in Hadd by lia.
      rewrite Hadd. apply Qmult_le_r; [done|].
      rewrite (pow2_Z 52) by lia. rewrite <- Zle_Qle.
      apply round_half_even_ge. rewrite <- pow2_Z by lia.
      apply Qle_shift_div_l; [done|]. by rewrite <- Hadd.
Qed.

Lemma Qnum_sign (q : Q) :
  match Qnum q with
  | Z0 => (q == 0)%Q
  | Zpos _ => (0 < q)%Q
  | Zneg _ => (q < 0)%Q
  end.
Proof.
  destruct q as [[|a|a] b]; unfold Qeq, Qlt; simpl; lia.
Qed.

Lemma binary64_round_nonneg q : (0 <= q)%Q → (0 <= binary64_round q)%Q.
Proof.
  intros Hq. unfold binary64_round. pose proof (Qnum_sign q) as Hs.
  destruct (Qnum q); [lra| |lra]. by apply round_pos_nonneg.
Qed.

Lemma binary64_round_nonpos q : (q <= 0)%Q → (binary64_round q <= 0)%Q.
Proof.
  intros Hq. unfold binary64_round. pose proof (Qnum_sign q) as Hs.
  destruct (Qnum q); [lra|lra|].
  assert (0 <= round_pos (- q))%Q; [|lra]. apply round_pos_nonneg. lra.
Qed.

Lemma binary64_round_mono x y :
  (x <= y)%Q → (binary64_round x <= binary64_round y)%Q.
Proof.
  intros Hxy.
  destruct (Qlt_le_dec 0 x) as [Hx|Hx].
  - assert (Hy : (0 < y)%Q) by lra.
    unfold binary64_round.
    pose proof (Qnum_sign x) as Hsx. pose proof (Qnum_sign y) as Hsy.
    destruct (Qnum x); [lra| |lra]. destruct (Qnum y); [lra| |lra].
    by apply round_pos_mono.
  - destruct (Qlt_le_dec y 0) as [Hy|Hy].
    + unfold binary64_round.
      pose proof (Qnum_sign x) as Hsx. pose proof (Qnum_sign y) as Hsy.
      destruct (Qnum x); [lra|lra|]. destruct (Qnum y); [lra|lra|].
      assert (round_pos (- y) <= round_pos (- x))%Q; [|lra].
      apply round_pos_mono; lra.
    + pose proof (binary64_round_nonpos x Hx).
      pose proof (binary64_round_nonneg y Hy). lra.
Qed.

Lemma round_half_even_comp x y :
  (x == y)%Q → round_half_even x = round_half_even y.
Proof.
  intros Heq. apply Z.le_antisymm; apply round_half_even_mono; lra.
Qed.

Lemma binary64_round_comp x y :
  (x == y)%Q → (binary64_round x == binary64_round y)%Q.
Proof.
  intros Heq. apply Qle_antisym; apply binary64_round_mono; lra.
Qed.

Lemma binary64_round_small_int (n : Z) :
  0 ≤ n < 2 ^ 53 → (binary64_round (inject_Z n) == inject_Z n)%Q.
Proof.
  intros [Hn0 Hn]. unfold binary64_round. simpl Qnum.
  destruct n as [|p|p]; [done| |lia].
  assert (Hs : (0 < inject_Z (Z.pos p))%Q) by done.
  destruct (ilog2_spec _ Hs) as [He _].
  assert (Hlog : ilog2 (inject_Z (Z.pos p)) < 53).
  { apply pow2_lt_inv. apply Qle_lt_trans with (inject_Z (Z.pos p)); [done|].
    rewrite (pow2_Z 53) by lia. by rewrite <- Zlt_Qlt. }
  unfold round_pos. set (k := Z.max _ _).
  assert (Hk : k ≤ 0) by lia.
  pose proof (pow2_add (- k) k) as Hadd.
  replace (- k + k) with 0 in Hadd by lia.
  change (pow2 0) with 1%Q in Hadd.
  assert (Hdiv : (inject_Z (Z.pos p) / pow2 k
                  == inject_Z (Z.pos p * 2 ^ (- k)))%Q).
  { rewrite inject_Z_mult, <- pow2_Z by lia.
    unfold Qdiv, pow2. by rewrite Qpower_opp. }
  rewrite (round_half_even_comp _ _ Hdiv), round_half_even_Z.
  rewrite inject_Z_mult, <- pow2_Z by lia.
  by rewrite <- Qmult_assoc, <- Hadd, Qmult_1_r.
Qed.

Lemma float_of_int_nonneg (n : nat) : (0 <= float_of_int (Z.of_nat n))%Q.
Proof.
  apply binary64_round_nonneg. change 0%Q with (inject_Z 0).
  rewrite <- Zle_Qle. lia.
Qed.

Lemma float_of_int_exact (n : Z) :
  0 ≤ n < 2 ^ 53 → (float_of_int n == inject_Z n)%Q.
Proof. apply binary64_round_small_int. Qed.

Lemma float_mul_mono_l (x1 x2 y : Q) :
  (0 <= y)%Q → (x1 <= x2)%Q → (float_mul x1 y <= float_mul x2 y)%Q.
Proof.
  intros Hy Hle. apply binary64_round_mono. by apply Qmult_le_compat_r.
Qed.

Lemma min_support_count_of_mono (s1 s2 : Q) (n : nat) :
  (s1 <= s2)%Q → min_support_count_of s1 n ≤ min_support_count_of s2 n.
Proof.
  intros Hle. unfold min_support_count_of. apply py_int_mono.
  apply float_mul_mono_l; [apply float_of_int_nonneg|done].
Qed.

(** ** Loops that do not raise *)

Lemma getitem_Some `{Countable K} {V : Type} (d : gmap K V) (k : K) (v : V) :
  d !! k = Some v → getitem d k = Return v.
Proof. unfold getitem. by intros ->. Qed.

(** A loop whose body returns at every step, under an invariant, returns
    the left fold of the values of its body. *)
Lemma for_each_foldl {A S : Type} (I : S → Prop) (l : list A)
    (body : S → A → outcome S) (f : S → A → S) (s : S) :
  I s →
  (∀ s x, I s → x ∈ l → body s x = Return (f s x) ∧ I (f s x)) →
  for_each l body s = Return (foldl f s l) ∧ I (foldl f s l).
Proof.
  revert s. induction l as [|x l IH]; intros s Hs Hbody; simpl; [done|].
  destruct (Hbody s x Hs) as [-> Hs']; [left|]. simpl.
  apply IH; [done|]. intros s' y ? ?. apply Hbody; [done|by right].
Qed.

Section apriori_facts.
Context {Item : Type} `{Countable Item}.

Local Abbreviation Itemset := (gset Item).

Implicit Types (X Y : Itemset) (T : list Itemset) (F S : gset Itemset).
Implicit Types (M m : gmap Itemset Z).

(** ** Support counts *)

Lemma support_nil X : support [] X = 0.
Proof. reflexivity. Qed.

Lemma support_cons t T X :
  support (t :: T) X = (if decide (X ⊆ t) then 1 else 0) + support T X.
Proof.
  unfold support. rewrite filter_cons.
  destruct (decide (X ⊆ t)); simpl; lia.
Qed.

Lemma support_nonneg T X : 0 ≤ support T X.
Proof. unfold support. lia. Qed.

(** Antimonotonicity: a smaller itemset is contained in at least as many
    transactions. *)
Lemma support_anti T X Y : Y ⊆ X → support T X ≤ support T Y.
Proof.
  intros HYX. induction T as [|t T IH]; [done|].
  rewrite !support_cons.
  destruct (decide (X ⊆ t)), (decide (Y ⊆ t)); try lia.
  set_solver.
Qed.

Lemma support_pos_subseteq T X : 0 < support T X → X ⊆ all_items T.
Proof.
  unfold all_items. generalize (∅ : Itemset).
  induction T as [|t T IH]; intros acc.
  - rewrite support_nil. lia.
  - rewrite support_cons. simpl. destruct (decide (X ⊆ t)) as [Ht|Ht].
    + intros _. clear IH. assert (Hacc : X ⊆ acc ∪ t) by set_solver.
      revert Hacc. generalize (acc ∪ t). clear Ht.
      induction T as [|t' T IH]; simpl; [done|].
      intros acc' Hacc. apply IH. set_solver.
    + intros Hs. apply IH. lia.
Qed.

Lemma elem_of_all_items T (x : Item) :
  x ∈ all_items T ↔ ∃ t, t ∈ T ∧ x ∈ t.
Proof.
  unfold all_items.
  assert (∀ acc : Itemset,
    x ∈ foldl (λ a t, a ∪ t) acc T ↔ x ∈ acc ∨ ∃ t, t ∈ T ∧ x ∈ t) as Hgen.
  { induction T as [|t T IH]; intros acc; simpl.
    - split; [by left|]. intros [?|(t & Ht & _)]; [done|]. by inversion Ht.
    - rewrite IH. rewrite elem_of_union. split.
      + intros [[?|?]|(t' & ? & ?)]; [by left| |].
        * right. exists t. split; [left|done].
        * right. exists t'. split; [by right|done].
      + intros [?|(t' & Ht' & ?)]; [by left; left|].
        apply elem_of_cons in Ht' as [->|?]; [by left; right|].
        right. by exists t'. }
  rewrite Hgen. split; [intros [Hx|?]; [|done]|by right].
  by apply not_elem_of_empty in Hx.
Qed.

(** *** [count_support] *)

Lemma count_inner_lookup (t : Itemset) (l : list Itemset) m X :
  NoDup l →
  foldl (λ sc itemset, if decide (itemset ⊆ t)
                       then <[itemset := sc !!! itemset + 1]> sc else sc)
        m l !! X
  = if decide (X ∈ l ∧ X ⊆ t) then Some (m !!! X + 1) else m !! X.
Proof.
  intros Hnd. revert m.
  induction Hnd as [|y l Hy Hnd IH]; intros m; cbn [foldl].
  - rewrite decide_False; [done|]. intros [Hd _]. by inversion Hd.
  - rewrite IH. destruct (decide (X = y)) as [->|Hne].
    + rewrite decide_False by (intros [? _]; done).
      destruct (decide (y ⊆ t)) as [Ht|Ht].
      * rewrite decide_True by (split; [left|done]).
        by rewrite lookup_insert_eq.
      * rewrite decide_False by (intros [_ ?]; done). done.
    + assert (Hm : (if decide (y ⊆ t) then <[y := m !!! y + 1]> m else m)
                   !! X = m !! X).
      { destruct (decide (y ⊆ t)); [|done].
        by rewrite lookup_insert_ne by congruence. }
      rewrite lookup_total_alt, Hm, <- lookup_total_alt.
      destruct (decide (X ∈ l ∧ X ⊆ t)) as [[Hl Ht]|Hn].
      * rewrite decide_True by (split; [by right|done]). done.
      * rewrite decide_False; [done|].
        intros [Hl Ht]. apply Hn. split; [|done].
        apply elem_of_cons in Hl as [?|?]; done.
Qed.

Lemma count_outer_lookup T S m X :
  (∀ Y, Y ∈ S → is_Some (m !! Y)) →
  foldl (λ support_counts transaction,
           foldl (λ support_counts itemset,
                    if decide (itemset ⊆ transaction)
                    then <[itemset := support_counts !!! itemset + 1]>
                           support_counts
                    else support_counts)
                 support_counts (elements S))
        m T !! X
  = if decide (X ∈ S) then (λ c, c + support T X) <$> m !! X else m !! X.
Proof.
  revert m. induction T as [|t T IH]; intros m Hm; cbn [foldl].
  - case_decide; [|done]. destruct (m !! X); simpl; [|done].
    f_equal. rewrite support_nil. lia.
  - rewrite IH.
    + rewrite count_inner_lookup by apply NoDup_elements.
      destruct (decide (X ∈ S)) as [HX|HX].
      * rewrite support_cons. destruct (Hm X HX) as [c Hc].
        rewrite lookup_total_alt, Hc. simpl.
        destruct (decide (X ⊆ t)) as [Ht|Ht].
        -- rewrite decide_True by (split; [by apply elem_of_elements|done]).
           simpl. f_equal. lia.
        -- rewrite decide_False by (intros [_ ?]; done).
           simpl. f_equal.
      * rewrite decide_False; [done|].
        intros [HX' _]. by apply elem_of_elements in HX'.
    + intros Y HY. rewrite count_inner_lookup by apply NoDup_elements.
      destruct (decide (Y ∈ elements S ∧ Y ⊆ t)); [eauto|by apply Hm].
Qed.

(** [count_support] returns, with a map of exactly the given itemsets,
    each to its support count. *)
Lemma count_support_returns T S :
  ∃ sc, count_support T S = Return sc ∧ counts T S sc.
Proof.
  unfold count_support. cbv zeta.
  set (inner := λ (t : Itemset) (sc : gmap Itemset Z) (itemset : Itemset),
         if decide (itemset ⊆ t) then <[itemset := sc !!! itemset + 1]> sc
         else sc).
  set (present := λ sc : gmap Itemset Z, ∀ Y, Y ∈ S → is_Some (sc !! Y)).
  assert (Hinner : ∀ t sc, present sc →
    for_each (elements S)
      (λ sc itemset,
         if decide (itemset ⊆ t) then
           count ← getitem sc itemset; Return (<[itemset := count + 1]> sc)
         else Return sc) sc
    = Return (foldl (inner t) sc (elements S))
      ∧ present (foldl (inner t) sc (elements S))).
  { intros t sc Hsc. apply (for_each_foldl present); [done|].
    intros sc' Y Hsc' HY. apply elem_of_elements in HY.
    destruct (Hsc' Y HY) as [c Hc]. unfold inner.
    destruct (decide (Y ⊆ t)); [|done]. split.
    - rewrite (getitem_Some _ _ c) by done. simpl.
      by rewrite lookup_total_alt, Hc.
    - intros Y' HY'. rewrite lookup_insert_is_Some.
      destruct (decide (Y = Y')); [by left|]. right. split; [done|].
      by apply Hsc'. }
  destruct (for_each_foldl present T
              (λ sc t, for_each (elements S)
                 (λ sc itemset,
                    if decide (itemset ⊆ t) then
                      count ← getitem sc itemset;
                      Return (<[itemset := count + 1]> sc)
                    else Return sc) sc)
              (λ sc t, foldl (inner t) sc (elements S))
              (gset_to_gmap 0 S)) as [Hret Hpres].
  - intros Y HY. rewrite lookup_gset_to_gmap, option_guard_True by done.
    by eexists.
  - intros sc t Hsc _. by apply Hinner.
  - eexists. split; [exact Hret|]. intros X. unfold inner.
    rewrite count_outer_lookup.
    + rewrite lookup_gset_to_gmap.
      destruct (decide (X ∈ S)) as [HX|HX].
      * rewrite option_guard_True by done. simpl. f_equal.
      * by rewrite option_guard_False.
    + intros Y HY. rewrite lookup_gset_to_gmap, option_guard_True by done.
      by eexists.
Qed.

(** ** Candidate generation *)

Lemma all_subsets_frequent_true F (subsets : list (list Item)) :
  all_subsets_frequent F subsets = true
  ↔ ∀ c, c ∈ subsets → list_to_set c ∈ F.
Proof.
  induction subsets as [|c subsets IH]; simpl.
  - split; [|done]. by intros _ c ?%not_elem_of_nil.
  - destruct (decide (list_to_set c ∉ F)) as [Hc|Hc].
    + split; [done|]. intros Hall. destruct Hc. apply Hall. left.
    + apply dec_stable in Hc. rewrite IH. split.
      * intros Hall c' [->|?]%elem_of_cons; [done|by apply Hall].
      * intros Hall c' ?. apply Hall. by right.
Qed.

(** The subsets of [U] with [r] items are the sets of the combinations
    of its elements. *)
Lemma subsets_combinations (U : Itemset) (r : nat) Y :
  Y ⊆ U ∧ size Y = r
  ↔ ∃ c, c ∈ combinations (elements U) r ∧ list_to_set c = Y.
Proof.
  split.
  - intros [HYU Hsize]. exists (filter (λ x, x ∈ Y) (elements U)).
    assert (Hset : list_to_set (filter (λ x, x ∈ Y) (elements U)) = Y).
    { apply set_eq. intros x.
      rewrite elem_of_list_to_set, list_elem_of_filter, elem_of_elements.
      split; [by intros [? _]|]. intros Hx. split; [done|by apply HYU]. }
    split; [|done]. apply elem_of_combinations. split.
    + apply sublist_filter.
    + pose proof (size_list_to_set (C:=Itemset)
                    (filter (λ x, x ∈ Y) (elements U))) as Hlen.
      rewrite Hset in Hlen. rewrite <- Hlen; [done|].
      apply NoDup_filter, NoDup_elements.
  - intros (c & Hc & <-). apply elem_of_combinations in Hc as [Hsub <-].
    assert (Hnd : NoDup c).
    { eapply sublist_NoDup; [apply (NoDup_elements U)|done]. }
    split; [|by apply size_list_to_set].
    intros x Hx. apply elem_of_list_to_set in Hx.
    apply elem_of_elements. by eapply elem_of_sublist.
Qed.

Lemma all_subsets_frequent_spec F (U : Itemset) (r : nat) :
  all_subsets_frequent F (combinations (elements U) r) = true
  ↔ ∀ Y, Y ⊆ U → size Y = r → Y ∈ F.
Proof.
  rewrite all_subsets_frequent_true. split.
  - intros Hall Y HYU Hsize.
    destruct (proj1 (subsets_combinations U r Y)) as (c & Hc & <-); [done|].
    by apply Hall.
  - intros Hall c Hc. 
    destruct (proj2 (subsets_combinations U r (list_to_set c))) as [? ?];
      [by exists c|]. by apply Hall.
Qed.

Lemma elem_of_join F (k : nat) x (candidates : gset Itemset) y c :
  c ∈ join F k x candidates y
  ↔ c ∈ candidates ∨ (c = x ∪ y ∧ eligible F k c).
Proof.
  unfold join, eligible. cbv zeta.
  destruct (decide (size (x ∪ y) = k)) as [Hk|Hk].
  - destruct (all_subsets_frequent _ _) eqn:Hall.
    + rewrite all_subsets_frequent_spec in Hall.
      rewrite elem_of_union, elem_of_singleton. split.
      * intros [->|?]; [right|by left]. done.
      * intros [?|[-> _]]; [by right|by left].
    + split; [by left|]. intros [?|[-> [_ Hsub]]]; [done|].
      rewrite <- all_subsets_frequent_spec in Hsub. congruence.
  - split; [by left|]. intros [?|[-> [? _]]]; done.
Qed.

Lemma elem_of_foldl_join F (k : nat) x (l : list Itemset)
    (candidates : gset Itemset) c :
  c ∈ foldl (join F k x) candidates l
  ↔ c ∈ candidates ∨ (eligible F k c ∧ ∃ y, y ∈ l ∧ c = x ∪ y).
Proof.
  revert candidates. induction l as [|y l IH]; intros candidates; simpl.
  - split; [by left|]. intros [?|[_ (y & Hy & _)]]; [done|].
    by apply not_elem_of_nil in Hy.
  - rewrite IH, elem_of_join. split.
    + intros [[?|[-> ?]]|[? (y' & ? & ->)]]; [by left| |].
      * right. split; [done|]. exists y. split; [left|done].
      * right. split; [done|]. exists y'. split; [by right|done].
    + intros [?|[? (y' & Hy' & ->)]]; [by left; left|].
      apply elem_of_cons in Hy' as [->|?]; [by left; right|].
      right. split; [done|]. by exists y'.
Qed.

(** The two loops join every pair of the list, the first before the
    second. *)
Lemma elem_of_join_pairs F (k : nat) (l : list Itemset)
    (candidates : gset Itemset) c :
  c ∈ join_pairs F k l candidates
  ↔ c ∈ candidates
    ∨ (eligible F k c ∧ ∃ x y, sublist [x; y] l ∧ c = x ∪ y).
Proof.
  revert candidates. induction l as [|x l IH]; intros candidates; simpl.
  - split; [by left|]. intros [?|[_ (x & y & Hsub & _)]]; [done|].
    by apply sublist_nil_r in Hsub.
  - rewrite IH, elem_of_foldl_join. split.
    + intros [[?|[? (y & ? & ->)]]|[? (x' & y & ? & ->)]]; [by left| |].
      * right. split; [done|]. exists x, y. split; [|done].
        apply sublist_skip. by apply singleton_sublist_l.
      * right. split; [done|]. exists x', y. split; [|done].
        by apply sublist_cons.
    + intros [?|[? (x' & y & Hsub & ->)]]; [by left; left|].
      apply sublist_cons_r in Hsub as [Hsub|(l' & Heq & Hsub)].
      * right. split; [done|]. by exists x', y.
      * left. right. split; [done|]. injection Heq as -> <-.
        exists y. split; [|done]. by apply singleton_sublist_l.
Qed.

Lemma sublist_pair_total (l : list Itemset) x y :
  NoDup l → x ∈ l → y ∈ l → x ≠ y → sublist [x; y] l ∨ sublist [y; x] l.
Proof.
  intros Hnd. induction Hnd as [|z l Hz Hnd IH]; intros Hx Hy Hne.
  - by apply not_elem_of_nil in Hx.
  - apply elem_of_cons in Hx as [->|Hx], Hy as [->|Hy].
    + done.
    + left. apply sublist_skip. by apply singleton_sublist_l.
    + right. apply sublist_skip. by apply singleton_sublist_l.
    + destruct IH as [?|?]; [done..| |].
      * left. by apply sublist_cons.
      * right. by apply sublist_cons.
Qed.

(** A set with at least two items has two different ones. *)
Lemma two_elements (c : Itemset) :
  (2 ≤ size c)%nat → ∃ a b, a ∈ c ∧ b ∈ c ∧ a ≠ b.
Proof.
  intros Hsize. unfold size, set_size in Hsize. simpl in Hsize.
  pose proof (NoDup_elements c) as Hnd.
  destruct (elements c) as [|a [|b l]] eqn:Hel; simpl in Hsize; [lia..|].
  exists a, b. rewrite <- !elem_of_elements, Hel. split; [left|].
  split; [right; left|].
  apply NoDup_cons in Hnd as [Ha _]. intros ->. apply Ha. left.
Qed.

(** [generate_candidates] returns exactly the eligible itemsets. *)
Lemma elem_of_generate_candidates F (k : nat) c :
  (2 ≤ k)%nat → c ∈ generate_candidates F k ↔ eligible F k c.
Proof.
  intros Hk. unfold generate_candidates. rewrite elem_of_join_pairs. split.
  - intros [Hc|[? _]]; [|done]. by apply not_elem_of_empty in Hc.
  - intros Hel. right. split; [done|]. destruct Hel as [Hsize Hsub].
    destruct (two_elements c) as (a & b & Ha & Hb & Hab); [lia|].
    assert (Hsa : size (c ∖ {[a]}) = (k - 1)%nat).
    { rewrite size_difference, size_singleton by set_solver. lia. }
    assert (Hsb : size (c ∖ {[b]}) = (k - 1)%nat).
    { rewrite size_difference, size_singleton by set_solver. lia. }
    assert (Hu : c = (c ∖ {[a]}) ∪ (c ∖ {[b]})).
    { apply set_eq. intros x. rewrite elem_of_union, !elem_of_difference,
        !elem_of_singleton. split; [|tauto]. intros Hx.
      destruct (decide (x = a)) as [->|?]; [right|left]; done. }
    assert (Hne : c ∖ {[a]} ≠ c ∖ {[b]}).
    { intros Heq. assert (Hb' : b ∈ c ∖ {[a]}).
      { apply elem_of_difference. split; [done|].
        intros ?%elem_of_singleton. by apply Hab. }
      rewrite Heq in Hb'. apply elem_of_difference in Hb' as [_ Hb'].
      apply Hb'. by apply elem_of_singleton. }
    destruct (sublist_pair_total (elements F) (c ∖ {[a]}) (c ∖ {[b]}))
      as [Hp|Hp]; [apply NoDup_elements| | |done| |].
    + apply elem_of_elements, Hsub; [apply subseteq_difference_l|]; done.
    + apply elem_of_elements, Hsub; [apply subseteq_difference_l|]; done.
    + by exists (c ∖ {[a]}), (c ∖ {[b]}).
    + exists (c ∖ {[b]}), (c ∖ {[a]}). split; [done|].
      rewrite (union_comm_L (c ∖ {[b]})). done.
Qed.

(** Fewer than two itemsets leave no pair to join. *)
Lemma generate_candidates_few F (k : nat) :
  (size F < 2)%nat → generate_candidates F k = ∅.
Proof.
  intros Hsize. apply set_eq. intros c. split; [|by intros ?%not_elem_of_empty].
  unfold generate_candidates. rewrite elem_of_join_pairs.
  intros [?|[_ (x & y & Hsub & _)]]; [done|].
  apply sublist_length in Hsub. simpl in Hsub.
  unfold size, set_size in Hsize. simpl in Hsize. lia.
Qed.

(** ** Subsets of a given size *)

Lemma subset_of_size X (n : nat) :
  (n ≤ size X)%nat → ∃ Y, Y ⊆ X ∧ size Y = n.
Proof.
  induction n as [|n IH]; intros Hn.
  - exists ∅. split; [apply empty_subseteq|apply size_empty].
  - destruct IH as (Y & HYX & HY); [lia|].
    assert (Hex : ∃ x, x ∈ X ∧ x ∉ Y).
    { destruct (decide (X ⊆ Y)) as [HXY|HXY].
      - apply subseteq_size in HXY. lia.
      - destruct (set_choose_L (X ∖ Y)) as [x Hx].
        + intros He. apply HXY. intros x Hx.
          destruct (decide (x ∈ Y)) as [|Hn']; [done|].
          assert (x ∈ X ∖ Y) as Hd by (by apply elem_of_difference).
          rewrite He in Hd. by apply not_elem_of_empty in Hd.
        + apply elem_of_difference in Hx. by exists x. }
    destruct Hex as (x & HxX & HxY). exists ({[x]} ∪ Y). split.
    + intros y [->%elem_of_singleton|?]%elem_of_union; [done|by apply HYX].
    + rewrite size_union, size_singleton; [lia|].
      intros y ->%elem_of_singleton. done.
Qed.

(** A set has a subset of every size from 1 up to its own that contains a
    given one of its items. *)
Lemma subset_of_size_with X (x : Item) (n : nat) :
  x ∈ X → (1 ≤ n ≤ size X)%nat → ∃ Y, Y ⊆ X ∧ size Y = n ∧ x ∈ Y.
Proof.
  intros Hx Hn.
  destruct (subset_of_size (X ∖ {[x]}) (n - 1)) as (Y & HY & Hsize).
  { rewrite size_difference, size_singleton; [lia|].
    by apply singleton_subseteq_l. }
  exists ({[x]} ∪ Y). split; [|split].
  - intros y [->%elem_of_singleton|Hy]%elem_of_union; [done|].
    apply HY in Hy. by apply elem_of_difference in Hy as [? _].
  - rewrite size_union, size_singleton; [lia|].
    intros y ->%elem_of_singleton Hy. apply HY in Hy.
    apply elem_of_difference in Hy as [_ Hy]. apply Hy.
    by apply elem_of_singleton.
  - apply elem_of_union. left. by apply elem_of_singleton.
Qed.

Lemma size_pos_nonempty X : (1 ≤ size X)%nat → X ≠ ∅.
Proof. intros Hs ->. rewrite size_empty in Hs. lia. Qed.

Lemma nonempty_size_pos X : X ≠ ∅ → (1 ≤ size X)%nat.
Proof.
  intros HX. destruct (size X) eqn:Hs; [|lia].
  apply size_empty_iff in Hs. destruct HX. by apply leibniz_equiv.
Qed.

(** ** Frequent itemsets *)

(** Downward closure of the specification's notion. *)
Lemma frequent_subset T (threshold : Z) X Y :
  frequent T threshold X → Y ⊆ X → Y ≠ ∅ → frequent T threshold Y.
Proof.
  intros (_ & HX & Hthr) HYX HY. split; [done|]. split.
  - by etrans.
  - pose proof (support_anti T X Y HYX). lia.
Qed.

Lemma elem_of_keep_frequent (sc : gmap Itemset Z) (threshold : Z) X :
  X ∈ keep_frequent sc threshold ↔ ∃ c, sc !! X = Some c ∧ threshold ≤ c.
Proof.
  unfold keep_frequent. rewrite elem_of_dom. unfold is_Some.
  setoid_rewrite map_lookup_filter_Some. simpl. done.
Qed.

Lemma elem_of_keep_frequent_count T S (sc : gmap Itemset Z)
    (threshold : Z) X :
  counts T S sc →
  X ∈ keep_frequent sc threshold ↔ X ∈ S ∧ threshold ≤ support T X.
Proof.
  intros Hsc. rewrite elem_of_keep_frequent, (Hsc X).
  destruct (decide (X ∈ S)) as [HX|HX].
  - split; [intros (c & [= <-] & ?); done|]. intros [_ ?]. eauto.
  - split; [by intros (c & ? & _)|by intros [? _]].
Qed.

Lemma record_level_returns (current : gset Itemset)
    (sc acc : gmap Itemset Z) :
  (∀ X, X ∈ current → is_Some (sc !! X)) →
  ∃ acc', record_level current sc acc = Return acc'
          ∧ ∀ X, acc' !! X
                 = if decide (X ∈ current) then sc !! X else acc !! X.
Proof.
  intros Hcur. unfold record_level.
  destruct (for_each_foldl (λ _, True) (elements current)
              (λ fi itemset,
                 count ← getitem sc itemset; Return (<[itemset := count]> fi))
              (λ fi itemset, <[itemset := sc !!! itemset]> fi) acc)
    as [Hret _]; [done| |].
  { intros fi Y _ HY. apply elem_of_elements in HY.
    destruct (Hcur Y HY) as [c Hc]. split; [|done].
    rewrite (getitem_Some _ _ c) by done. simpl.
    by rewrite lookup_total_alt, Hc. }
  eexists. split; [exact Hret|]. intros X.
  assert (Hgen : ∀ (l : list Itemset) (acc : gmap Itemset Z),
    foldl (λ fi itemset, <[itemset := sc !!! itemset]> fi) acc l !! X
    = if decide (X ∈ l) then Some (sc !!! X) else acc !! X).
  { clear. induction l as [|y l IH]; intros acc; cbn [foldl].
    - rewrite decide_False; [done|apply not_elem_of_nil].
    - rewrite IH. destruct (decide (X ∈ l)) as [Hl|Hl].
      + by rewrite decide_True by (by right).
      + destruct (decide (X = y)) as [->|Hne].
        * rewrite decide_True by left. by rewrite lookup_insert_eq.
        * rewrite decide_False by (by intros [?|?]%elem_of_cons).
          by rewrite lookup_insert_ne by congruence. }
  rewrite Hgen. destruct (decide (X ∈ current)) as [HX|HX].
  - rewrite decide_True by (by apply elem_of_elements).
    destruct (Hcur X HX) as [c Hc]. by rewrite lookup_total_alt, Hc.
  - rewrite decide_False; [done|]. by rewrite elem_of_elements.
Qed.

(** Recording a level adds its frequent candidates, with their supports,
    and keeps the other entries. *)
Lemma record_level_count T S (sc : gmap Itemset Z) (threshold : Z)
    (acc : gmap Itemset Z) :
  counts T S sc →
  ∃ acc', record_level (keep_frequent sc threshold) sc acc = Return acc'
    ∧ ∀ X c, acc' !! X = Some c
        ↔ ((X ∈ S ∧ threshold ≤ support T X) ∧ c = support T X)
          ∨ (¬ (X ∈ S ∧ threshold ≤ support T X) ∧ acc !! X = Some c).
Proof.
  intros Hsc.
  destruct (record_level_returns (keep_frequent sc threshold) sc acc)
    as (acc' & Hret & Hlook).
  { intros X (c & Hc & _)%elem_of_keep_frequent. eauto. }
  exists acc'. split; [done|]. intros X c. rewrite Hlook.
  destruct (decide (X ∈ keep_frequent _ _)) as [HX|HX];
    rewrite (elem_of_keep_frequent_count T S) in HX by done.
  - destruct HX as [HS Hthr]. rewrite (Hsc X), decide_True by done. split.
    + intros [= <-]. by left.
    + intros [[_ ->]|[Hn _]]; [done|]. by destruct Hn.
  - split; [by right|]. intros [[? _]|[_ ?]]; [|done].
    by destruct HX.
Qed.

(** ** The level-wise search *)

(** Every itemset eligible over the frequent itemsets of size [k - 1]
    is made of items of the transactions. *)
Lemma eligible_subseteq T (threshold : Z) (current : gset Itemset)
    (k : nat) c :
  (2 ≤ k)%nat →
  (∀ X, X ∈ current → frequent T threshold X) →
  eligible current k c → c ⊆ all_items T.
Proof.
  intros Hk Hcur [Hsize Hsub] x Hx.
  destruct (subset_of_size_with c x (k - 1)) as (Y & HY & HsY & HxY);
    [done|lia|].
  destruct (Hcur Y) as (_ & HYall & _); [by apply Hsub|]. by apply HYall.
Qed.

(** A frequent itemset of size [k] is eligible over the frequent itemsets
    of size [k - 1]. *)
Lemma frequent_eligible T (threshold : Z) (current : gset Itemset)
    (k : nat) X :
  (2 ≤ k)%nat →
  (∀ Y, frequent T threshold Y → size Y = (k - 1)%nat → Y ∈ current) →
  frequent T threshold X → size X = k → eligible current k X.
Proof.
  intros Hk Hcur HX Hsize. split; [done|]. intros Y HYX HsY.
  apply Hcur; [|done]. eapply frequent_subset; [done..|].
  apply size_pos_nonempty. lia.
Qed.

Lemma level_loop_spec T (threshold : Z) (fuel : nat) :
  ∀ (current : gset Itemset) (k : nat) (acc : gmap Itemset Z),
  (2 ≤ k ≤ size (all_items T) + 2)%nat →
  (size (all_items T) + 3 ≤ fuel + k)%nat →
  (∀ X, X ∈ current ↔ frequent T threshold X ∧ size X = (k - 1)%nat) →
  (∀ X c, acc !! X = Some c
          ↔ frequent T threshold X ∧ (size X < k)%nat ∧ c = support T X) →
  ∃ M, level_loop fuel T threshold current k acc = Return M
       ∧ ∀ X c, M !! X = Some c
                ↔ frequent T threshold X ∧ c = support T X.
Proof.
  induction fuel as [|fuel IH]; intros current k acc Hk Hfuel Hcur Hacc;
    [lia|].
  cbn [level_loop].
  (* No frequent itemset has [k] items or more once a level is empty. *)
  assert (Hdone : (∀ Y, frequent T threshold Y → size Y ≠ k) →
    ∀ X c, acc !! X = Some c ↔ frequent T threshold X ∧ c = support T X).
  { intros Hnone X c. rewrite Hacc. split; [by intros (? & _ & ?)|].
    intros [HX ->]. split; [done|]. split; [|done].
    destruct (decide (size X < k)%nat) as [|Hge]; [done|]. exfalso.
    destruct (subset_of_size X k) as (Y & HYX & HsY); [lia|].
    apply (Hnone Y); [|done]. eapply frequent_subset; [done..|].
    apply size_pos_nonempty. lia. }
  destruct (decide (current = ∅)) as [Hempty|Hempty].
  { exists acc. split; [done|]. apply Hdone. intros Y HY HsY.
    destruct (subset_of_size Y (k - 1)) as (Z & HZY & HsZ); [lia|].
    assert (HZ : Z ∈ current).
    { apply Hcur. split; [|done]. eapply frequent_subset; [done..|].
      apply size_pos_nonempty. lia. }
    rewrite Hempty in HZ. by apply not_elem_of_empty in HZ. }
  destruct (decide (generate_candidates current k = ∅)) as [Hnoc|Hnoc].
  { exists acc. split; [done|]. apply Hdone. intros Y HY HsY.
    assert (Hc : Y ∈ generate_candidates current k).
    { apply elem_of_generate_candidates; [lia|].
      eapply frequent_eligible; [lia| |done..].
      intros Z ? ?. by apply Hcur. }
    rewrite Hnoc in Hc. by apply not_elem_of_empty in Hc. }
  assert (Hcand : ∀ X, X ∈ generate_candidates current k
                       ∧ threshold ≤ support T X
                       ↔ frequent T threshold X ∧ size X = k).
  { intros X. rewrite elem_of_generate_candidates by lia. split.
    - intros [Hel Hthr]. split; [|by destruct Hel].
      split; [|split; [|done]].
      + apply size_pos_nonempty. destruct Hel as [-> _]. lia.
      + eapply eligible_subseteq; [|intros Y HY; by apply Hcur|done]. lia.
    - intros [HX Hsize]. split; [|by destruct HX as (_ & _ & ?)].
      eapply frequent_eligible; [lia| |done..].
      intros Z ? ?. by apply Hcur. }
  destruct (count_support_returns T (generate_candidates current k))
    as (sc & -> & Hsc). simpl.
  destruct (record_level_count T _ sc threshold acc Hsc)
    as (acc' & -> & Hacc'). simpl.
  apply IH.
  - split; [lia|].
    destruct (set_choose_L _ Hnoc) as [c Hc].
    apply elem_of_generate_candidates in Hc; [|lia].
    pose proof (eligible_subseteq T threshold current k c) as Hsub.
    destruct Hc as [Hsize ?].
    assert (size c ≤ size (all_items T))%nat; [|lia].
    apply subseteq_size, Hsub; [lia| |done].
    intros Y HY. by apply Hcur.
  - lia.
  - intros X. rewrite (elem_of_keep_frequent_count T _ sc) by done.
    rewrite Hcand. by replace (S k - 1)%nat with k by lia.
  - intros X c. rewrite Hacc', Hcand, Hacc. split.
    + intros [[[HX Hsize] ->]|[Hn (HX & Hsize & ->)]].
      * split; [done|]. split; [lia|done].
      * split; [done|]. split; [lia|done].
    + intros (HX & Hsize & ->).
      destruct (decide (size X = k)) as [Hs|Hs].
      * by left.
      * right. split; [by intros [_ ?]|]. split; [done|].
        split; [lia|done].
Qed.

(** More fuel does not change a result. *)
Lemma level_loop_fuel_mono (fuel fuel' : nat) T (threshold : Z)
    (current : gset Itemset) (k : nat) (acc M : gmap Itemset Z) :
  (fuel ≤ fuel')%nat →
  level_loop fuel T threshold current k acc = Return M →
  level_loop fuel' T threshold current k acc = Return M.
Proof.
  revert fuel' current k acc.
  induction fuel as [|fuel IH]; intros fuel' current k acc Hle; [done|].
  destruct fuel' as [|fuel']; [lia|]. cbn [level_loop].
  destruct (decide (current = ∅)); [done|].
  destruct (decide (generate_candidates current k = ∅)); [done|].
  destruct (count_support T _) as [sc| |]; simpl; [|done..].
  destruct (record_level _ sc acc) as [acc'| |]; simpl; [|done..].
  apply IH. lia.
Qed.

(** The first level: the frequent single items. *)
Lemma first_level T (threshold : Z) X :
  X ∈ (set_map (λ item : Item, ({[item]} : Itemset)) (all_items T)
         : gset Itemset)
    ∧ threshold ≤ support T X
  ↔ frequent T threshold X ∧ size X = 1%nat.
Proof.
  rewrite elem_of_map. split.
  - intros [(a & -> & Ha) Hthr]. split; [|apply size_singleton].
    split; [|split; [|done]].
    + intros He. assert (a ∈ (∅ : Itemset)) as Ha'; [|set_solver].
      rewrite <- He. by apply elem_of_singleton.
    + by apply singleton_subseteq_l.
  - intros [(_ & HX & Hthr) Hsize]. split; [|done].
    apply size_1_elem_of in Hsize as [a Ha]. apply leibniz_equiv in Ha.
    exists a. split; [done|]. apply HX. rewrite Ha.
    by apply elem_of_singleton.
Qed.

(** The result of [get_frequent_itemsets], whatever the threshold: the
    loop exits, and the map holds exactly the frequent itemsets, each with
    its support count. *)
Lemma get_frequent_itemsets_spec T (min_support : Q) :
  ∃ M, returns T min_support M
       ∧ ∀ X c, M !! X = Some c
                ↔ frequent T (min_support_count_of min_support (length T)) X
                  ∧ c = support T X.
Proof.
  set (threshold := min_support_count_of min_support (length T)).
  set (single := (set_map (λ item : Item, ({[item]} : Itemset))
                    (all_items T) : gset Itemset)).
  destruct (count_support_returns T single) as (sc & Hsc_ret & Hsc).
  set (current := keep_frequent sc threshold).
  destruct (record_level_count T single sc threshold ∅ Hsc)
    as (acc & Hacc_ret & Hacc).
  destruct (level_loop_spec T threshold (size (all_items T) + 1)
              current 2 acc) as (M & HM & Hspec).
  - lia.
  - lia.
  - intros X. unfold current.
    rewrite (elem_of_keep_frequent_count T single sc) by done.
    apply first_level.
  - intros X c. rewrite Hacc, lookup_empty.
    unfold single. rewrite first_level. split.
    + intros [[[HX Hsize] ->]|[_ ?]]; [|done].
      split; [done|]. split; [lia|done].
    + intros (HX & Hsize & ->). left.
      assert (size X = 1%nat) as Hs.
      { pose proof (nonempty_size_pos X) as Hpos.
        destruct HX as (HX & _). specialize (Hpos HX). lia. }
      done.
  - exists M. split; [|done]. exists (size (all_items T) + 1)%nat.
    intros fuel Hfuel. unfold get_frequent_itemsets. cbv zeta.
    fold threshold single. rewrite Hsc_ret. unfold mbind, outcome_bind.
    fold current in Hacc_ret |- *. rewrite Hacc_ret.
    by apply (level_loop_fuel_mono (size (all_items T) + 1)).
Qed.

(** A call returns one map only. *)
Lemma returns_functional T (min_support : Q) (M1 M2 : gmap Itemset Z) :
  returns T min_support M1 → returns T min_support M2 → M1 = M2.
Proof.
  intros [f1 H1] [f2 H2].
  specialize (H1 (f1 `max` f2)%nat). specialize (H2 (f1 `max` f2)%nat).
  rewrite H1 in H2 by lia. injection H2; [done|lia].
Qed.

(** ** Grouping by size, and the sorted sizes *)

Lemma keys_NoDup M : NoDup (keys M).
Proof. apply NoDup_fst_map_to_list. Qed.

Lemma elem_of_keys M X : X ∈ keys M ↔ is_Some (M !! X).
Proof.
  unfold keys. rewrite list_elem_of_fmap. split.
  - intros ([Y c] & -> & Hin). apply elem_of_map_to_list in Hin. by exists c.
  - intros [c Hc]. exists (X, c). split; [done|].
    by apply elem_of_map_to_list.
Qed.

(** A group holds the itemsets of its size, in the order of the list. *)
Lemma group_by_size_lookup_total (l : list Itemset) (n : nat) :
  group_by_size l !!! n = filter (λ X, size X = n) l.
Proof.
  unfold group_by_size.
  assert (Hgen : ∀ (l : list Itemset) (g : gmap nat (list Itemset)),
    foldl (λ g X, <[size X := g !!! size X ++ [X]]> g) g l !!! n
    = g !!! n ++ filter (λ X, size X = n) l).
  { clear l. induction l as [|Y l IH]; intros g; cbn [foldl].
    - by rewrite app_nil_r.
    - rewrite IH, filter_cons. destruct (decide (size Y = n)) as [<-|Hne].
      + rewrite lookup_total_insert_eq. by rewrite <- app_assoc.
      + by rewrite lookup_total_insert_ne. }
  rewrite Hgen. by rewrite lookup_total_empty.
Qed.

Lemma elem_of_group_by_size (l : list Itemset) (n : nat) X :
  X ∈ group_by_size l !!! n ↔ X ∈ l ∧ size X = n.
Proof.
  rewrite group_by_size_lookup_total, list_elem_of_filter. tauto.
Qed.

(** The sizes that have a group are the sizes of the itemsets. *)
Lemma group_by_size_is_Some (l : list Itemset) (n : nat) :
  is_Some (group_by_size l !! n) ↔ ∃ X, X ∈ l ∧ size X = n.
Proof.
  unfold group_by_size.
  assert (Hgen : ∀ (l : list Itemset) (g : gmap nat (list Itemset)),
    is_Some (foldl (λ g X, <[size X := g !!! size X ++ [X]]> g) g l !! n)
    ↔ is_Some (g !! n) ∨ ∃ X, X ∈ l ∧ size X = n).
  { clear l. induction l as [|Y l IH]; intros g; cbn [foldl].
    - split; [by left|]. intros [?|(X & HX & _)]; [done|].
      by apply not_elem_of_nil in HX.
    - rewrite IH, lookup_insert_is_Some. split.
      + intros [[Hs|[_ ?]]|(X & ? & ?)].
        * right. exists Y. split; [left|done].
        * by left.
        * right. exists X. split; [by right|done].
      + intros [?|(X & [->|?]%elem_of_cons & HsX)].
        * destruct (decide (size Y = n)); [by left; left|].
          left. by right.
        * by left; left.
        * right. by exists X. }
  rewrite Hgen. split; [|by right]. intros [Hs|?]; [|done].
  rewrite lookup_empty in Hs. by destruct Hs.
Qed.

Lemma sizes_of_sorted (g : gmap nat (list Itemset)) :
  StronglySorted (flip le) (sizes_of g).
Proof.
  unfold sizes_of. apply StronglySorted_merge_sort.
  - intros a b c ??. unfold flip in *. lia.
  - intros a b. unfold flip. lia.
Qed.

Lemma elem_of_sizes_of (g : gmap nat (list Itemset)) (n : nat) :
  n ∈ sizes_of g ↔ is_Some (g !! n).
Proof.
  unfold sizes_of. rewrite merge_sort_Permutation, list_elem_of_fmap. split.
  - intros ([n' l] & -> & Hin). apply elem_of_map_to_list in Hin.
    by exists l.
  - intros [l Hl]. exists (n, l). split; [done|].
    by apply elem_of_map_to_list.
Qed.

Lemma sizes_of_NoDup (g : gmap nat (list Itemset)) : NoDup (sizes_of g).
Proof.
  unfold sizes_of. rewrite merge_sort_Permutation.
  apply NoDup_fst_map_to_list.
Qed.

(** ** The scans for a disqualifying superset *)

Lemma same_support_superset_returns M X (support : Z)
    (others : list Itemset) :
  (∀ Y, Y ∈ others → is_Some (M !! Y)) →
  ∃ b, same_support_superset M X support others = Return b
       ∧ (b = true ↔ ∃ Y, Y ∈ others ∧ X ⊂ Y ∧ M !! Y = Some support).
Proof.
  induction others as [|Y others IH]; intros Hkeys; simpl.
  - exists false. split; [done|]. split; [done|].
    intros (Y & HY & _). by apply not_elem_of_nil in HY.
  - destruct IH as (b & Hb & Hspec).
    { intros Y' ?. apply Hkeys. by right. }
    destruct (Hkeys Y) as [c Hc]; [left|].
    destruct (decide (X ⊂ Y)) as [HXY|HXY].
    + rewrite (getitem_Some _ _ c) by done. simpl.
      destruct (decide (c = support)) as [->|Hne].
      * exists true. split; [done|]. split; [|done]. intros _.
        exists Y. split; [left|done].
      * exists b. split; [done|]. rewrite Hspec. split.
        -- intros (Y' & ? & ?). exists Y'. split; [by right|done].
        -- intros (Y' & [->|?]%elem_of_cons & ? & ?); [congruence|].
           by exists Y'.
    + exists b. split; [done|]. rewrite Hspec. split.
      * intros (Y' & ? & ?). exists Y'. split; [by right|done].
      * intros (Y' & [->|?]%elem_of_cons & ? & ?); [done|]. by exists Y'.
Qed.

Lemma has_superset_true X (others : list Itemset) :
  has_superset X others = true ↔ ∃ Y, Y ∈ others ∧ X ⊂ Y.
Proof.
  induction others as [|Y others IH]; simpl.
  - split; [done|]. intros (Y & HY & _). by apply not_elem_of_nil in HY.
  - destruct (decide (X ⊂ Y)) as [HXY|HXY].
    + split; [|done]. intros _. exists Y. split; [left|done].
    + rewrite IH. split.
      * intros (Y' & ? & ?). exists Y'. split; [by right|done].
      * intros (Y' & [->|?]%elem_of_cons & ?); [done|]. by exists Y'.
Qed.

(** On sizes sorted in descending order, stopping at the first size that
    is not larger loses no larger size. *)
Lemma is_closed_returns M (g : gmap nat (list Itemset)) X (support : Z)
    (n : nat) (sizes : list nat) :
  StronglySorted (flip le) sizes →
  (∀ larger Y, Y ∈ g !!! larger → is_Some (M !! Y)) →
  ∃ b, is_closed M g X support n sizes = Return b
       ∧ (b = true
          ↔ ∀ larger, larger ∈ sizes → (n < larger)%nat →
              ¬ ∃ Y, Y ∈ g !!! larger ∧ X ⊂ Y ∧ M !! Y = Some support).
Proof.
  intros Hsorted Hkeys.
  induction Hsorted as [|a sizes Hsorted IH Hall]; simpl.
  - exists true. split; [done|]. split; [|done].
    by intros _ larger ?%not_elem_of_nil.
  - destruct (decide (a ≤ n)%nat) as [Hle|Hgt].
    + exists true. split; [done|]. split; [|done].
      intros _ larger [->|Hin]%elem_of_cons Hlt; [lia|].
      rewrite Forall_forall in Hall. specialize (Hall _ Hin).
      unfold flip in Hall. lia.
    + destruct (same_support_superset_returns M X support (g !!! a))
        as (found & -> & Hfound); [by apply Hkeys|]. simpl.
      destruct found.
      * exists false. split; [done|]. split; [done|]. intros Hnone.
        destruct (Hnone a); [left|lia|]. by apply Hfound.
      * destruct IH as (b & Hb & Hspec). exists b. split; [done|].
        rewrite Hspec. split.
        -- intros Hnone larger [->|?]%elem_of_cons ?; [|by apply Hnone].
           intros Hex. by apply Hfound in Hex.
        -- intros Hnone larger ? ?. apply Hnone; [by right|done].
Qed.

Lemma is_maximal_true (g : gmap nat (list Itemset)) X (n : nat)
    (sizes : list nat) :
  StronglySorted (flip le) sizes →
  is_maximal g X n sizes = true
  ↔ ∀ larger, larger ∈ sizes → (n < larger)%nat →
      has_superset X (g !!! larger) = false.
Proof.
  induction 1 as [|a sizes Hsorted IH Hall]; simpl.
  - split; [|done]. by intros _ larger ?%not_elem_of_nil.
  - destruct (decide (a ≤ n)%nat) as [Hle|Hgt].
    + split; [|done]. intros _ larger [->|Hin]%elem_of_cons Hlt; [lia|].
      rewrite Forall_forall in Hall. specialize (Hall _ Hin).
      unfold flip in Hall. lia.
    + destruct (has_superset X (g !!! a)) eqn:Hscan.
      * split; [done|]. intros Hnone.
        rewrite Hnone in Hscan; [done|left|lia].
      * rewrite IH. split.
        -- intros Hnone larger [->|?]%elem_of_cons ?; [done|].
           by apply Hnone.
        -- intros Hnone larger ? ?. apply Hnone; [by right|done].
Qed.

(** ** The closed itemsets *)

Lemma insert_if_lookup (p : Itemset → bool) (f : Itemset → Z)
    (l : list Itemset) (acc : gmap Itemset Z) X :
  foldl (λ acc Y, if p Y then <[Y := f Y]> acc else acc) acc l !! X
  = if decide (X ∈ l ∧ p X = true) then Some (f X) else acc !! X.
Proof.
  revert acc. induction l as [|Y l IH]; intros acc; cbn [foldl].
  - rewrite decide_False; [done|]. by intros [?%not_elem_of_nil _].
  - rewrite IH. destruct (decide (X ∈ l ∧ p X = true)) as [[Hl Hp]|Hn].
    + by rewrite decide_True by (split; [by right|done]).
    + destruct (decide (X = Y)) as [->|Hne].
      * destruct (p Y) eqn:Hp.
        -- rewrite decide_True by (split; [left|done]).
           by rewrite lookup_insert_eq.
        -- by rewrite decide_False by (by intros [_ ?]).
      * rewrite decide_False.
        -- destruct (p Y); [|done]. by rewrite lookup_insert_ne by congruence.
        -- intros [[?|?]%elem_of_cons ?]; [done|]. by apply Hn.
Qed.

Lemma insert_if_nested_lookup (P : nat → Itemset → bool) (f : Itemset → Z)
    (g : nat → list Itemset) (l : list nat) (acc : gmap Itemset Z) X c :
  foldl (λ acc a, foldl (λ acc Y, if P a Y then <[Y := f Y]> acc else acc)
                        acc (g a)) acc l !! X = Some c
  ↔ (c = f X ∧ ∃ a, a ∈ l ∧ X ∈ g a ∧ P a X = true)
    ∨ ((∀ a, a ∈ l → X ∈ g a → P a X = false) ∧ acc !! X = Some c).
Proof.
  revert acc. induction l as [|a l IH]; intros acc; cbn [foldl].
  - split; [right|].
    + split; [|done]. by intros a ?%not_elem_of_nil.
    + intros [[_ (a & ?%not_elem_of_nil & _)]|[_ ?]]; done.
  - rewrite IH, insert_if_lookup. split.
    + intros [[-> (a' & ? & ? & ?)]|[Hnone Hacc]].
      * left. split; [done|]. exists a'. split; [by right|done].
      * destruct (decide (X ∈ g a ∧ P a X = true)) as [[? ?]|Hn].
        -- left. split; [congruence|]. exists a. split; [left|done].
        -- right. split; [|done].
           intros a' [->|?]%elem_of_cons Hin; [|by apply Hnone].
           destruct (P a X) eqn:HP; [|done]. by destruct Hn.
    + intros [[-> (a' & [->|Hin]%elem_of_cons & Hg & HP)]|[Hnone Hacc]].
      * destruct (decide (Exists (λ a, X ∈ g a ∧ P a X = true) l))
          as [Hex|Hn].
        -- left. split; [done|].
           apply Exists_exists in Hex as (a' & ? & ? & ?). by exists a'.
        -- right. split; [|by rewrite decide_True].
           intros a' ? ?. destruct (P a' X) eqn:HPa; [|done].
           destruct Hn. apply Exists_exists. by exists a'.
      * left. split; [done|]. by exists a'.
      * right. split; [intros a' ? ?; apply Hnone; [by right|done]|].
        rewrite decide_False; [done|]. intros [Hg HP].
        rewrite Hnone in HP; [done|left|done].
Qed.

(** [find_closed_itemsets] returns, and keeps exactly the keys without a
    proper superset of the same support among the keys, with their
    supports. *)
Lemma find_closed_itemsets_returns M :
  ∃ C, find_closed_itemsets M = Return C
       ∧ ∀ X (c : Z), C !! X = Some c ↔ M !! X = Some c ∧ closed_in M X c.
Proof.
  unfold find_closed_itemsets. destruct (decide (M = ∅)) as [->|Hne].
  { exists ∅. split; [done|]. intros X c. rewrite lookup_empty.
    split; [done|by intros [? _]]. }
  cbv zeta.
  set (g := group_by_size (keys M)). set (sizes := sizes_of g).
  assert (Hkeys : ∀ n Y, Y ∈ g !!! n → is_Some (M !! Y)).
  { intros n Y [HY _]%elem_of_group_by_size. by apply elem_of_keys. }
  set (P := λ (n : nat) (Y : Itemset),
         match is_closed M g Y (M !!! Y) n sizes with
         | Return b => b
         | _ => false
         end).
  assert (Hscan : ∀ n X, X ∈ g !!! n →
    P n X = true ↔ closed_in M X (M !!! X)).
  { intros n X [HX Hn]%elem_of_group_by_size. unfold P.
    destruct (is_closed_returns M g X (M !!! X) n sizes)
      as (b & -> & Hb); [apply sizes_of_sorted|done|].
    rewrite Hb. split.
    - intros Hnone Y HXY HY.
      assert (HsY : (n < size Y)%nat).
      { rewrite <- Hn. by apply subset_size. }
      assert (HYk : Y ∈ keys M) by (apply elem_of_keys; eauto).
      assert (Hin : size Y ∈ sizes).
      { apply elem_of_sizes_of, group_by_size_is_Some. by exists Y. }
      apply (Hnone _ Hin HsY). exists Y.
      split; [by apply elem_of_group_by_size|done].
    - intros Hclosed larger _ _ (Y & _ & HXY & HY).
      by apply (Hclosed Y HXY). }
  destruct (for_each_foldl (S:=gmap Itemset Z) (λ _, True) sizes
    (λ closed_itemsets size,
       for_each (g !!! size)
         (λ closed_itemsets itemset,
            support ← getitem M itemset;
            closed ← is_closed M g itemset support size sizes;
            if closed : bool
            then Return (<[itemset := support]> closed_itemsets)
            else Return closed_itemsets)
         closed_itemsets)
    (λ acc n, foldl (λ acc Y, if P n Y then <[Y := M !!! Y]> acc else acc)
                    acc (g !!! n))
    ∅) as [Hret _]; [done| |].
  { intros acc n _ _. split; [|done].
    apply (for_each_foldl (λ _, True)); [done|].
    intros acc' Y _ HY. split; [|done].
    destruct (Hkeys n Y HY) as [c Hc].
    rewrite (getitem_Some _ _ c) by done. simpl. unfold P.
    rewrite lookup_total_alt, Hc. simpl.
    destruct (is_closed_returns M g Y c n sizes)
      as (b & -> & _); [apply sizes_of_sorted|done|].
    simpl. by destruct b. }
  eexists. split; [exact Hret|]. intros X c.
  rewrite (insert_if_nested_lookup P (λ Y, M !!! Y) (λ n, g !!! n)).
  rewrite lookup_empty. split.
  - intros [[-> (n & Hn & Hg & Hcl)]|[_ ?]]; [|done].
    destruct (Hkeys n X Hg) as [c' Hc'].
    apply Hscan in Hcl; [|done].
    rewrite lookup_total_alt, Hc' in *. done.
  - intros [HX Hcl]. left.
    assert (Hc : M !!! X = c) by (by rewrite lookup_total_alt, HX).
    split; [done|]. exists (size X).
    assert (Hg : X ∈ g !!! size X).
    { apply elem_of_group_by_size. split; [|done].
      apply elem_of_keys. eauto. }
    split; [|split; [done|]].
    + apply elem_of_sizes_of, group_by_size_is_Some. exists X.
      split; [|done]. apply elem_of_keys. eauto.
    + apply Hscan; [done|]. by rewrite Hc.
Qed.

(** ** The maximal itemsets *)

Lemma append_if_eq (p : Itemset → bool) (l acc : list Itemset) :
  foldl (λ acc Y, if p Y then acc ++ [Y] else acc) acc l
  = acc ++ filter (λ Y, p Y = true) l.
Proof.
  revert acc. induction l as [|Y l IH]; intros acc; cbn [foldl].
  - by rewrite app_nil_r.
  - rewrite IH, filter_cons. destruct (p Y) eqn:Hp.
    + rewrite decide_True by done. by rewrite <- app_assoc.
    + by rewrite decide_False by done.
Qed.

Lemma append_if_nested_eq (P : nat → Itemset → bool)
    (g : nat → list Itemset) (l : list nat) (acc : list Itemset) :
  foldl (λ acc a, foldl (λ acc Y, if P a Y then acc ++ [Y] else acc)
                        acc (g a)) acc l
  = acc ++ (l ≫= λ a, filter (λ Y, P a Y = true) (g a)).
Proof.
  revert acc. induction l as [|a l IH]; intros acc; cbn [foldl].
  - by rewrite app_nil_r.
  - rewrite IH, append_if_eq. by rewrite <- app_assoc.
Qed.

(** The sorted sizes of a non-empty map are not empty: [sizes[0]] is
    there. *)
Lemma sizes_of_nonempty M :
  M ≠ ∅ → ∃ n, index (sizes_of (group_by_size (keys M))) 0 = Return n.
Proof.
  intros Hne. destruct (map_choose M Hne) as (X & c & HX).
  assert (Hin : size X ∈ sizes_of (group_by_size (keys M))).
  { apply elem_of_sizes_of, group_by_size_is_Some. exists X.
    split; [|done]. apply elem_of_keys. eauto. }
  unfold index. destruct (sizes_of _) as [|n l]; [|by exists n].
  by apply not_elem_of_nil in Hin.
Qed.

(** The maximal itemsets as one expression: the groups, from the largest
    size down, each filtered by the scan. *)
Lemma find_maximal_itemsets_eq M :
  M ≠ ∅ →
  find_maximal_itemsets M
  = Return (sizes_of (group_by_size (keys M)) ≫= λ n,
      filter (λ Y, is_maximal (group_by_size (keys M)) Y n
                     (sizes_of (group_by_size (keys M))) = true)
             (group_by_size (keys M) !!! n)).
Proof.
  intros Hne. unfold find_maximal_itemsets.
  rewrite decide_False by done. cbv zeta.
  destruct (sizes_of_nonempty M Hne) as [n ->]. simpl. f_equal.
  by rewrite (append_if_nested_eq
                (λ n Y, is_maximal (group_by_size (keys M)) Y n
                          (sizes_of (group_by_size (keys M))))
                (λ n, group_by_size (keys M) !!! n)).
Qed.

(** [find_maximal_itemsets] returns, and lists exactly the keys without a
    proper superset among the keys, none twice. *)
Lemma find_maximal_itemsets_returns M :
  ∃ L, find_maximal_itemsets M = Return L
       ∧ NoDup L
       ∧ ∀ X, X ∈ L ↔ is_Some (M !! X) ∧ maximal_in M X.
Proof.
  destruct (decide (M = ∅)) as [->|Hne].
  { exists []. unfold find_maximal_itemsets. rewrite decide_True by done.
    split; [done|]. split; [constructor|]. intros X.
    split; [by intros ?%not_elem_of_nil|].
    intros [[c Hc] _]. by rewrite lookup_empty in Hc. }
  eexists. split; [by apply find_maximal_itemsets_eq|].
  set (g := group_by_size (keys M)). set (sizes := sizes_of g). split.
  { apply NoDup_bind.
    - intros n1 n2 Y _ _ [_ H1]%list_elem_of_filter
        [_ H2]%list_elem_of_filter.
      apply elem_of_group_by_size in H1 as [_ <-].
      by apply elem_of_group_by_size in H2 as [_ <-].
    - intros n _. apply NoDup_filter. unfold g.
      rewrite group_by_size_lookup_total. apply NoDup_filter, keys_NoDup.
    - apply sizes_of_NoDup. }
  intros X. rewrite list_elem_of_bind.
  assert (Hscan : ∀ n, X ∈ g !!! n →
    is_maximal g X n sizes = true ↔ maximal_in M X).
  { intros n [HX Hn]%elem_of_group_by_size.
    rewrite is_maximal_true by apply sizes_of_sorted. split.
    - intros Hnone Y HXY. destruct (M !! Y) as [c|] eqn:HY; [|done].
      exfalso.
      assert (HsY : (n < size Y)%nat).
      { rewrite <- Hn. by apply subset_size. }
      assert (HYk : Y ∈ keys M) by (apply elem_of_keys; eauto).
      assert (Hin : size Y ∈ sizes).
      { apply elem_of_sizes_of, group_by_size_is_Some. by exists Y. }
      specialize (Hnone _ Hin HsY).
      apply not_true_iff_false in Hnone. apply Hnone.
      apply has_superset_true. exists Y.
      split; [by apply elem_of_group_by_size|done].
    - intros Hmax larger _ _. apply not_true_iff_false.
      intros (Y & [HY _]%elem_of_group_by_size & HXY)%has_superset_true.
      apply elem_of_keys in HY as [c' Hc'].
      by rewrite (Hmax Y HXY) in Hc'. }
  split.
  - intros (n & [Hmax Hg]%list_elem_of_filter & Hn).
    pose proof Hg as [?%elem_of_keys _]%elem_of_group_by_size.
    split; [done|]. by apply (Hscan n).
  - intros [HX Hmax]. exists (size X).
    assert (Hg : X ∈ g !!! size X).
    { apply elem_of_group_by_size. split; [|done]. by apply elem_of_keys. }
    split.
    + apply list_elem_of_filter. split; [|done]. by apply Hscan.
    + apply elem_of_sizes_of, group_by_size_is_Some. exists X.
      split; [|done]. by apply elem_of_keys.
Qed.

(** A maximal itemset is closed. *)
Lemma maximal_in_closed_in M X (c : Z) : maximal_in M X → closed_in M X c.
Proof. intros Hmax Y HXY. by rewrite (Hmax Y HXY). Qed.

(** A list without repetition inside a finite set is no longer than the
    set is large. *)
Lemma NoDup_length_le_size (l : list Itemset) (S : gset Itemset) :
  NoDup l → (∀ X, X ∈ l → X ∈ S) → (length l ≤ size S)%nat.
Proof.
  intros Hnd Hin. rewrite <- (size_list_to_set (C:=gset Itemset) l Hnd).
  apply subseteq_size. intros X HX. apply Hin.
  by apply elem_of_list_to_set in HX.
Qed.

(** ** A threshold of zero *)

(** At a threshold of 0 or less every non-empty set of items of the
    transactions is reported, also one that no transaction contains. *)
Lemma zero_threshold_reports_all T (min_support : Q) :
  min_support_count_of min_support (length T) ≤ 0 →
  ∃ M, returns T min_support M
       ∧ ∀ X, X ≠ ∅ → X ⊆ all_items T → M !! X = Some (support T X).
Proof.
  intros Hthr.
  destruct (get_frequent_itemsets_spec T min_support) as (M & Hret & Hspec).
  exists M. split; [done|]. intros X Hne Hsub. apply Hspec.
  split; [|done]. split; [done|]. split; [done|].
  pose proof (support_nonneg T X). lia.
Qed.

(** * The claims *)

(** C1. [get_frequent_itemsets] returns, and the keys of the map it
    returns are exactly the non-empty itemsets [X] made of items that occur
    in the transactions whose support count, the number of transactions
    that contain [X], is at least the floor of
    [min_support * |transactions|], the product being the float product
    that the code computes; each key is mapped to its support count. *)
Theorem get_frequent_itemsets_exact T (min_support : Q) :
  ∃ M, returns T min_support M
       ∧ ∀ X (c : Z),
           M !! X = Some c
           ↔ (X ≠ ∅
              ∧ (∀ x, x ∈ X → ∃ t, t ∈ T ∧ x ∈ t)
              ∧ Qfloor (float_mul min_support
                          (float_of_int (Z.of_nat (length T))))
                ≤ support T X)
             ∧ c = support T X.
Proof.
  destruct (get_frequent_itemsets_spec T min_support) as (M & Hret & Hspec).
  exists M. split; [done|]. intros X c. rewrite Hspec.
  unfold frequent, min_support_count_of.
  rewrite py_int_le_iff_floor by apply support_nonneg.
  assert (Hitems : X ⊆ all_items T ↔ ∀ x, x ∈ X → ∃ t, t ∈ T ∧ x ∈ t).
  { split.
    - intros HX x Hx. by apply elem_of_all_items, HX.
    - intros HX x Hx. by apply elem_of_all_items, HX. }
  rewrite Hitems. done.
Qed.

(** C2. [find_closed_itemsets M] returns the sub-map of [M] on the keys
    [X] that have no proper superset among the keys of [M] with the same
    support count: every kept key keeps its count, and the empty map gives
    the empty map. *)
Theorem find_closed_itemsets_exact M :
  ∃ C, find_closed_itemsets M = Return C
       ∧ (∀ X (c : Z),
            C !! X = Some c
            ↔ M !! X = Some c ∧ ¬ ∃ Y, X ⊂ Y ∧ M !! Y = Some c)
       ∧ C ⊆ M
       ∧ (M = ∅ → C = ∅).
Proof.
  destruct (find_closed_itemsets_returns M) as (C & Hret & Hspec).
  exists C. split; [done|]. split; [|split].
  - intros X c. rewrite Hspec. unfold closed_in. split.
    + intros [HX Hcl]. split; [done|]. intros (Y & HXY & HY).
      by apply (Hcl Y).
    + intros [HX Hcl]. split; [done|]. intros Y HXY HY.
      apply Hcl. by exists Y.
  - apply map_subseteq_spec. intros X c HX. by apply Hspec in HX as [? _].
  - intros ->. apply map_eq. intros X. rewrite lookup_empty.
    destruct (C !! X) as [c|] eqn:HX; [|done].
    apply Hspec in HX as [HX _]. by rewrite lookup_empty in HX.
Qed.

(** C3. [find_maximal_itemsets M] returns a list without repetition of
    exactly the keys of [M] that have no proper superset among the keys of
    [M]; a key of the largest size is in the list, and the empty map gives
    the empty list. *)
Theorem find_maximal_itemsets_exact M :
  ∃ L, find_maximal_itemsets M = Return L
       ∧ NoDup L
       ∧ (∀ X, X ∈ L
               ↔ is_Some (M !! X) ∧ ¬ ∃ Y, X ⊂ Y ∧ is_Some (M !! Y))
       ∧ (∀ X, is_Some (M !! X) →
               (∀ Y, is_Some (M !! Y) → (size Y ≤ size X)%nat) → X ∈ L)
       ∧ (M = ∅ → L = []).
Proof.
  destruct (find_maximal_itemsets_returns M) as (L & Hret & Hnd & Hspec).
  assert (Hiff : ∀ X, maximal_in M X ↔ ¬ ∃ Y, X ⊂ Y ∧ is_Some (M !! Y)).
  { intros X. unfold maximal_in. split.
    - intros Hmax (Y & HXY & [c Hc]). by rewrite (Hmax Y HXY) in Hc.
    - intros Hmax Y HXY. destruct (M !! Y) as [c|] eqn:HY; [|done].
      destruct Hmax. exists Y. split; [done|]. rewrite HY. by eexists. }
  exists L. split; [done|]. split; [done|]. split; [|split].
  - intros X. by rewrite Hspec, Hiff.
  - intros X HX Hlargest. apply Hspec. split; [done|]. apply Hiff.
    intros (Y & HXY & HY). apply subset_size in HXY.
    specialize (Hlargest Y HY). lia.
  - intros ->. destruct L as [|X L]; [done|].
    destruct (proj1 (Hspec X)) as [[c Hc] _]; [left|].
    by rewrite lookup_empty in Hc.
Qed.

(** C4. For [k >= 2], [generate_candidates F k] is the set of the itemsets
    [c] of [k] items whose every subset of [k - 1] items is in [F], each
    once (it is a set); it is empty when [F] has fewer than two members.
    The sizes of the members of [F] play no part. *)
Theorem generate_candidates_exact F (k : nat) :
  (2 ≤ k)%nat →
  (∀ c, c ∈ generate_candidates F k
        ↔ size c = k ∧ ∀ Y, Y ⊆ c → size Y = (k - 1)%nat → Y ∈ F)
  ∧ NoDup (elements (generate_candidates F k))
  ∧ ((size F < 2)%nat → generate_candidates F k = ∅).
Proof.
  intros Hk. split; [|split].
  - intros c. by apply elem_of_generate_candidates.
  - apply NoDup_elements.
  - apply generate_candidates_few.
Qed.

(** C5. Downward closure: in the map that [get_frequent_itemsets] returns,
    every non-empty proper subset of a key with more than one item is a
    key too. *)
Theorem downward_closure T (min_support : Q) :
  ∃ M, returns T min_support M
       ∧ ∀ X Y, is_Some (M !! X) → (1 < size X)%nat → Y ⊂ X → Y ≠ ∅ →
                is_Some (M !! Y).
Proof.
  destruct (get_frequent_itemsets_spec T min_support) as (M & Hret & Hspec).
  exists M. split; [done|]. intros X Y [c HX] _ [HYX _] HY.
  apply Hspec in HX as [HX _]. exists (support T Y). apply Hspec.
  split; [|done]. by eapply frequent_subset.
Qed.

(** C6. Every maximal itemset is a key of the closed map, so that
    [|maximal| <= |closed| <= |frequent|]; this holds for the empty map
    too. *)
Theorem maximal_closed_frequent M :
  ∃ C L, find_closed_itemsets M = Return C
         ∧ find_maximal_itemsets M = Return L
         ∧ (∀ X, X ∈ L → is_Some (C !! X))
         ∧ (length L ≤ size C ≤ size M)%nat.
Proof.
  destruct (find_closed_itemsets_returns M) as (C & HC & HCspec).
  destruct (find_maximal_itemsets_returns M) as (L & HL & Hnd & HLspec).
  exists C, L. split; [done|]. split; [done|].
  assert (Hin : ∀ X, X ∈ L → is_Some (C !! X)).
  { intros X [[c Hc] Hmax]%HLspec. exists c. apply HCspec.
    split; [done|]. by apply maximal_in_closed_in. }
  split; [done|]. split.
  - rewrite <- (size_dom (D:=gset Itemset) C).
    apply NoDup_length_le_size; [done|].
    intros X HX. by apply elem_of_dom, Hin.
  - apply map_subseteq_size, map_subseteq_spec.
    intros X c HX. by apply HCspec in HX as [? _].
Qed.

(** C7. The threshold of [get_frequent_itemsets] is the product
    [min_support * |transactions|], the float product that the code
    computes, truncated toward zero: its floor when it is not negative.
    The one threshold serves every level, and a non-empty itemset whose
    support count equals the threshold is kept (at the threshold 0, when
    its items occur in the transactions: no other itemset is ever
    counted), while no kept count is below the threshold. *)
Theorem threshold_floor_inclusive T (min_support : Q) :
  ((0 <= float_mul min_support (float_of_int (Z.of_nat (length T))))%Q →
   min_support_count_of min_support (length T)
   = Qfloor (float_mul min_support (float_of_int (Z.of_nat (length T)))))
  ∧ ((float_mul min_support (float_of_int (Z.of_nat (length T))) <= 0)%Q →
     min_support_count_of min_support (length T)
     = Qceiling (float_mul min_support
                   (float_of_int (Z.of_nat (length T)))))
  ∧ ∃ M, returns T min_support M
         ∧ (∀ X, X ≠ ∅ → X ⊆ all_items T →
                 support T X = min_support_count_of min_support (length T) →
                 M !! X = Some (support T X))
         ∧ (∀ X, X ≠ ∅ →
                 0 < min_support_count_of min_support (length T) →
                 support T X = min_support_count_of min_support (length T) →
                 M !! X = Some (support T X))
         ∧ (∀ X (c : Z), M !! X = Some c →
                 min_support_count_of min_support (length T) ≤ c).
Proof.
  split; [apply py_int_nonneg|]. split; [apply py_int_nonpos|].
  destruct (get_frequent_itemsets_spec T min_support) as (M & Hret & Hspec).
  exists M. split; [done|]. split; [|split].
  - intros X Hne Hsub Heq. apply Hspec. split; [|done].
    split; [done|]. split; [done|]. lia.
  - intros X Hne Hpos Heq. apply Hspec. split; [|done].
    split; [done|]. split; [|lia]. apply support_pos_subseteq. lia.
  - intros X c [(_ & _ & Hthr) ->]%Hspec. done.
Qed.

(** C8. A larger [min_support] gives a sub-map: every key of the run
    with [min_support2] is a key of the run with [min_support1], and the
    two maps give a common key the same count. *)
Theorem threshold_monotone T (min_support1 min_support2 : Q) :
  (min_support1 < min_support2)%Q →
  ∃ M1 M2, returns T min_support1 M1
           ∧ returns T min_support2 M2
           ∧ (∀ X, is_Some (M2 !! X) → is_Some (M1 !! X))
           ∧ (∀ X (c1 c2 : Z),
                M1 !! X = Some c1 → M2 !! X = Some c2 → c1 = c2).
Proof.
  intros Hlt%Qlt_le_weak.
  destruct (get_frequent_itemsets_spec T min_support1) as (M1 & Hr1 & H1).
  destruct (get_frequent_itemsets_spec T min_support2) as (M2 & Hr2 & H2).
  exists M1, M2. split; [done|]. split; [done|].
  pose proof (min_support_count_of_mono _ _ (length T) Hlt) as Hmono.
  split.
  - intros X [c [(Hne & Hsub & Hthr) ->]%H2]. exists (support T X).
    apply H1. split; [|done]. split; [done|]. split; [done|]. lia.
  - intros X c1 c2 [_ ->]%H1 [_ ->]%H2. done.
Qed.

(** C9. With no transaction, whatever [min_support] is,
    [get_frequent_itemsets] returns the empty map, on which
    [find_closed_itemsets] returns the empty map and
    [find_maximal_itemsets] the empty list: no call raises. *)
Theorem empty_input (min_support : Q) :
  returns (Item:=Item) [] min_support ∅
  ∧ find_closed_itemsets (∅ : gmap Itemset Z) = Return ∅
  ∧ find_maximal_itemsets (∅ : gmap Itemset Z) = Return [].
Proof.
  split; [|split].
  - exists 1%nat. intros [|fuel] Hfuel; [lia|]. done.
  - unfold find_closed_itemsets. by rewrite decide_True.
  - unfold find_maximal_itemsets. by rewrite decide_True.
Qed.

End apriori_facts.


(** * Further properties of the engine *)

Section further_properties.
Context {Item : Type} `{Countable Item}.

Local Abbreviation Itemset := (gset Item).

Implicit Types (X Y : Itemset) (T : list Itemset) (F S : gset Itemset).
Implicit Types (M m : gmap Itemset Z).

(** ** Support counts *)

Lemma support_le_length T X : support T X ≤ Z.of_nat (length T).
Proof. unfold support. pose proof (length_filter (λ t, X ⊆ t) T). lia. Qed.

Lemma support_empty T : support T ∅ = Z.of_nat (length T).
Proof.
  induction T as [|t T IH]; [done|].
  rewrite support_cons, decide_True by apply empty_subseteq.
  rewrite IH. simpl length. lia.
Qed.

(** A positive support count has a transaction behind it. *)
Lemma support_pos_transaction T X :
  0 < support T X → ∃ t, t ∈ T ∧ X ⊆ t.
Proof.
  induction T as [|t T IH].
  - rewrite support_nil. lia.
  - rewrite support_cons. destruct (decide (X ⊆ t)) as [Ht|Ht].
    + intros _. exists t. split; [left|done].
    + intros Hpos. destruct IH as (t' & ? & ?); [lia|].
      exists t'. split; [by right|done].
Qed.

Lemma support_all_transactions T X :
  (∀ t, t ∈ T → X ⊆ t) → support T X = Z.of_nat (length T).
Proof.
  induction T as [|t T IH]; intros Hall; [done|].
  rewrite support_cons, decide_True by (apply Hall; left).
  rewrite IH by (intros t' ?; apply Hall; by right). simpl length. lia.
Qed.

(** X1. [count_support] never raises: it returns a dict whose keys are
    exactly the given itemsets, each mapped to the number of transactions
    that contain it, a number between 0 and the number of transactions. *)
Theorem count_support_contract T S :
  ∃ sc, count_support T S = Return sc
        ∧ dom sc = S
        ∧ (∀ X, X ∈ S → sc !! X = Some (support T X))
        ∧ (∀ X (c : Z), sc !! X = Some c → 0 ≤ c ≤ Z.of_nat (length T)).
Proof.
  destruct (count_support_returns T S) as (sc & Hret & Hsc).
  exists sc. split; [done|]. split; [|split].
  - apply set_eq. intros X. rewrite elem_of_dom, (Hsc X).
    destruct (decide (X ∈ S)); [|by split; [intros []|]].
    split; [done|]. by eexists.
  - intros X HX. by rewrite (Hsc X), decide_True.
  - intros X c. rewrite (Hsc X). destruct (decide (X ∈ S)); [|done].
    intros [= <-]. split; [apply support_nonneg|apply support_le_length].
Qed.

(** X2. The counts of [count_support] are antimonotone: of two counted
    itemsets, the larger one has the smaller or equal count; the empty
    itemset, when counted, gets the number of transactions, and with no
    transaction every count is 0. *)
Theorem count_support_antimonotone T S :
  ∃ sc, count_support T S = Return sc
        ∧ (∀ X Y (cx cy : Z),
             X ⊆ Y → sc !! X = Some cx → sc !! Y = Some cy → cy ≤ cx)
        ∧ (∅ ∈ S → sc !! ∅ = Some (Z.of_nat (length T)))
        ∧ (T = [] → ∀ X, X ∈ S → sc !! X = Some 0).
Proof.
  destruct (count_support_returns T S) as (sc & Hret & Hsc).
  exists sc. split; [done|]. split; [|split].
  - intros X Y cx cy HXY. rewrite (Hsc X), (Hsc Y).
    destruct (decide (X ∈ S)); [|done]. destruct (decide (Y ∈ S)); [|done].
    intros [= <-] [= <-]. by apply support_anti.
  - intros He. by rewrite (Hsc ∅), decide_True, support_empty.
  - intros -> X HX. by rewrite (Hsc X), decide_True.
Qed.

(** ** Candidate generation *)

Lemma sublist_pair_elements F x y :
  (sublist [x; y] (elements F) ∨ sublist [y; x] (elements F))
  ↔ x ∈ F ∧ y ∈ F ∧ x ≠ y.
Proof.
  split.
  - assert (Hone : ∀ a b, sublist [a; b] (elements F) →
                          a ∈ F ∧ b ∈ F ∧ a ≠ b).
    { intros a b Hsub. split; [|split].
      - apply elem_of_elements. eapply elem_of_sublist; [|done]. left.
      - apply elem_of_elements. eapply elem_of_sublist; [|done].
        right; left.
      - pose proof (sublist_NoDup _ _ (NoDup_elements F) Hsub) as Hnd.
        apply NoDup_cons in Hnd as [Hnin _]. intros ->. apply Hnin. left. }
    intros [Hsub|Hsub]; apply Hone in Hsub as (? & ? & ?); done.
  - intros (Hx & Hy & Hne).
    apply sublist_pair_total; [apply NoDup_elements| | |done];
      by apply elem_of_elements.
Qed.

(** X3. Whatever [k] is, [generate_candidates] returns exactly the unions
    of two different members of the given set that have [k] items and whose
    subsets of [k - 1] items are all members: the order in which the set is
    listed plays no part, and a candidate has only items of the members. *)
Theorem generate_candidates_pairs F (k : nat) :
  (∀ c, c ∈ generate_candidates F k
        ↔ (∃ x y, x ∈ F ∧ y ∈ F ∧ x ≠ y ∧ c = x ∪ y)
          ∧ size c = k
          ∧ ∀ Y, Y ⊆ c → size Y = (k - 1)%nat → Y ∈ F)
  ∧ (∀ c, c ∈ generate_candidates F k → c ⊆ ⋃ (elements F)).
Proof.
  assert (Hchar : ∀ c, c ∈ generate_candidates F k
        ↔ (∃ x y, x ∈ F ∧ y ∈ F ∧ x ≠ y ∧ c = x ∪ y) ∧ eligible F k c).
  { intros c. unfold generate_candidates. rewrite elem_of_join_pairs. split.
    - intros [Hc|[Hel (x & y & Hsub & ->)]];
        [by apply not_elem_of_empty in Hc|].
      split; [|done]. exists x, y.
      destruct (proj1 (sublist_pair_elements F x y)) as (? & ? & ?);
        [by left|done].
    - intros [(x & y & Hx & Hy & Hne & ->) Hel]. right. split; [done|].
      destruct (proj2 (sublist_pair_elements F x y)) as [Hsub|Hsub];
        [done| |].
      + by exists x, y.
      + exists y, x. split; [done|]. apply union_comm_L. }
  split.
  - intros c. rewrite Hchar. unfold eligible. tauto.
  - intros c [(x & y & Hx & Hy & _ & ->) _]%Hchar a Ha.
    apply elem_of_union_list.
    apply elem_of_union in Ha as [Ha|Ha]; [exists x|exists y];
      (split; [by apply elem_of_elements|done]).
Qed.

(** X4. For [k >= 2], more itemsets give more candidates:
    [generate_candidates] is monotone in its set. *)
Theorem generate_candidates_mono F F' (k : nat) :
  (2 ≤ k)%nat → F ⊆ F' →
  generate_candidates F k ⊆ generate_candidates F' k.
Proof.
  intros Hk Hsub c. rewrite !elem_of_generate_candidates by done.
  intros [Hsize Hall]. split; [done|]. intros Y HY HsY.
  by apply Hsub, Hall.
Qed.

(** ** The level-wise search *)

(** The search within a number of loop entries one above the number of
    different items. *)
Lemma get_frequent_itemsets_within T (min_support : Q) (fuel : nat) :
  (size (all_items T) + 1 ≤ fuel)%nat →
  ∃ M, get_frequent_itemsets fuel T min_support = Return M
       ∧ ∀ X c, M !! X = Some c
                ↔ frequent T (min_support_count_of min_support (length T)) X
                  ∧ c = support T X.
Proof.
  intros Hfuel.
  set (threshold := min_support_count_of min_support (length T)).
  set (single := (set_map (λ item : Item, ({[item]} : Itemset))
                    (all_items T) : gset Itemset)).
  destruct (count_support_returns T single) as (sc & Hsc_ret & Hsc).
  set (current := keep_frequent sc threshold).
  destruct (record_level_count T single sc threshold ∅ Hsc)
    as (acc & Hacc_ret & Hacc).
  destruct (level_loop_spec T threshold fuel current 2 acc)
    as (M & HM & Hspec).
  - lia.
  - lia.
  - intros X. unfold current.
    rewrite (elem_of_keep_frequent_count T single sc) by done.
    apply first_level.
  - intros X c. rewrite Hacc, lookup_empty.
    unfold single. rewrite first_level. split.
    + intros [[[HX Hsize] ->]|[_ ?]]; [|done].
      split; [done|]. split; [lia|done].
    + intros (HX & Hsize & ->). left.
      assert (size X = 1%nat) as Hs.
      { pose proof (nonempty_size_pos X) as Hpos.
        destruct HX as (HX & _). specialize (Hpos HX). lia. }
      done.
  - exists M. split; [|done]. unfold get_frequent_itemsets. cbv zeta.
    fold threshold single. rewrite Hsc_ret. unfold mbind, outcome_bind.
    fold current in Hacc_ret |- *. by rewrite Hacc_ret.
Qed.

(** Two maps with the lookups of the specification are one map. *)
Lemma frequent_map_unique T (threshold : Z) M1 M2 :
  (∀ X c, M1 !! X = Some c ↔ frequent T threshold X ∧ c = support T X) →
  (∀ X c, M2 !! X = Some c ↔ frequent T threshold X ∧ c = support T X) →
  M1 = M2.
Proof.
  intros H1 H2. apply map_eq. intros X. apply option_eq. intros c.
  by rewrite H1, H2.
Qed.

(** X5. The condition of the [while] loop of [get_frequent_itemsets] is
    evaluated at most once more than there are different items in the
    transactions: with that much fuel the call returns, and the same map
    for any more. *)
Theorem get_frequent_itemsets_terminates T (min_support : Q) :
  ∃ M, ∀ fuel, (size (all_items T) + 1 ≤ fuel)%nat →
         get_frequent_itemsets fuel T min_support = Return M.
Proof.
  destruct (get_frequent_itemsets_within T min_support
              (size (all_items T) + 1)) as (M & _ & Hspec); [done|].
  exists M. intros fuel Hfuel.
  destruct (get_frequent_itemsets_within T min_support fuel Hfuel)
    as (M' & -> & Hspec').
  f_equal. by eapply frequent_map_unique.
Qed.

(** X6. Every entry of the map of [get_frequent_itemsets] is within
    bounds: the count is between 0 and the number of transactions, the key
    has at least one item and not more than there are different items, and
    a key with a positive count is contained in a transaction. *)
Theorem get_frequent_itemsets_bounds T (min_support : Q) :
  ∃ M, returns T min_support M
       ∧ ∀ X (c : Z), M !! X = Some c →
           0 ≤ c ≤ Z.of_nat (length T)
           ∧ (1 ≤ size X ≤ size (all_items T))%nat
           ∧ (0 < c → ∃ t, t ∈ T ∧ X ⊆ t).
Proof.
  destruct (get_frequent_itemsets_spec T min_support) as (M & Hret & Hspec).
  exists M. split; [done|].
  intros X c [(Hne & Hsub & _) ->]%Hspec. split; [|split].
  - split; [apply support_nonneg|apply support_le_length].
  - split; [by apply nonempty_size_pos|by apply subseteq_size].
  - apply support_pos_transaction.
Qed.

(** X7. The map of [get_frequent_itemsets] is empty exactly when no single
    item of the transactions reaches the threshold count; it is empty, in
    particular, when the threshold count is above the number of
    transactions. *)
Theorem get_frequent_itemsets_empty_iff T (min_support : Q) :
  ∃ M, returns T min_support M
       ∧ (M = ∅
          ↔ ∀ a, a ∈ all_items T →
                 support T {[a]}
                 < min_support_count_of min_support (length T))
       ∧ (Z.of_nat (length T) < min_support_count_of min_support (length T)
          → M = ∅).
Proof.
  destruct (get_frequent_itemsets_spec T min_support) as (M & Hret & Hspec).
  exists M. split; [done|].
  assert (Hiff : M = ∅
          ↔ ∀ a, a ∈ all_items T →
                 support T {[a]}
                 < min_support_count_of min_support (length T)).
  { split.
    - intros -> a Ha.
      destruct (Z.lt_ge_cases (support T {[a]})
                  (min_support_count_of min_support (length T)))
        as [|Hge]; [done|]. exfalso.
      assert (Hkey : (∅ : gmap Itemset Z) !! ({[a]} : Itemset)
                     = Some (support T {[a]})).
      { apply Hspec. split; [|done]. split; [|split; [|done]].
        - intros He. assert (a ∈ (∅ : Itemset)) as Hin.
          { rewrite <- He. by apply elem_of_singleton. }
          by apply not_elem_of_empty in Hin.
        - by apply singleton_subseteq_l. }
      by rewrite lookup_empty in Hkey.
    - intros Hnone. apply map_empty. intros X.
      destruct (M !! X) as [c|] eqn:HX; [|done]. exfalso.
      apply Hspec in HX as [(Hne & Hsub & Hthr) _].
      destruct (set_choose_L X Hne) as [a Ha].
      specialize (Hnone a (Hsub a Ha)).
      pose proof (support_anti T X {[a]}) as Hanti.
      rewrite <- singleton_subseteq_l in Ha. specialize (Hanti Ha). lia. }
  split; [done|]. intros Hlt. apply Hiff. intros a _.
  pose proof (support_le_length T {[a]}). lia.
Qed.

(** X8. When the threshold count is 0 or negative, everything is frequent:
    the keys of the map of [get_frequent_itemsets] are all the non-empty
    sets of items of the transactions, each with its support count, which
    may be 0. *)
Theorem nonpositive_threshold_all_frequent T (min_support : Q) :
  min_support_count_of min_support (length T) ≤ 0 →
  ∃ M, returns T min_support M
       ∧ ∀ X (c : Z),
           M !! X = Some c ↔ X ≠ ∅ ∧ X ⊆ all_items T ∧ c = support T X.
Proof.
  intros Hthr.
  destruct (get_frequent_itemsets_spec T min_support) as (M & Hret & Hspec).
  exists M. split; [done|]. intros X c. rewrite Hspec. unfold frequent.
  pose proof (support_nonneg T X). split.
  - intros [(? & ? & _) ?]. done.
  - intros (? & ? & ?). split; [|done]. split; [done|]. split; [done|]. lia.
Qed.

(** X9. For a [min_support] that [main] accepts, above 0 and at most 1,
    and fewer than 2^53 transactions, whose number is a float, the
    threshold count is between 0 and the number of transactions, and a
    non-empty itemset that every transaction contains is a key of the map,
    with the number of transactions as its count. *)
Theorem accepted_min_support_threshold T (min_support : Q) :
  (0 < min_support)%Q → (min_support <= 1)%Q →
  Z.of_nat (length T) < 2 ^ 53 →
  0 ≤ min_support_count_of min_support (length T) ≤ Z.of_nat (length T)
  ∧ ∃ M, returns T min_support M
         ∧ ∀ X, X ≠ ∅ → T ≠ [] → (∀ t, t ∈ T → X ⊆ t) →
                M !! X = Some (Z.of_nat (length T)).
Proof.
  intros Hpos Hle Hsmall.
  pose proof (float_of_int_nonneg (length T)) as Hn.
  assert (Hexact : (float_of_int (Z.of_nat (length T))
                    == inject_Z (Z.of_nat (length T)))%Q).
  { apply float_of_int_exact. lia. }
  assert (Hp : (0 <= float_mul min_support
                      (float_of_int (Z.of_nat (length T))))%Q).
  { apply binary64_round_nonneg.
    apply Qmult_le_0_compat; [by apply Qlt_le_weak|done]. }
  assert (Hthr : 0 ≤ min_support_count_of min_support (length T)
                 ≤ Z.of_nat (length T)).
  { unfold min_support_count_of. rewrite py_int_nonneg by done. split.
    - by apply Qfloor_nonneg.
    - transitivity (Qfloor (inject_Z (Z.of_nat (length T))));
        [|by rewrite Qfloor_Z].
      apply Qfloor_resp_le.
      apply Qle_trans with (float_of_int (Z.of_nat (length T)));
        [|lra].
      apply Qle_trans
        with (float_mul 1 (float_of_int (Z.of_nat (length T)))).
      + by apply float_mul_mono_l.
      + unfold float_mul. rewrite (binary64_round_comp _ _ (Qmult_1_l _)).
        unfold float_of_int at 1. rewrite (binary64_round_comp _ _ Hexact).
        apply Qle_refl. }
  split; [done|].
  destruct (get_frequent_itemsets_spec T min_support) as (M & Hret & Hspec).
  exists M. split; [done|]. intros X Hne HT Hall.
  pose proof (support_all_transactions T X Hall) as Hsup.
  apply Hspec. split; [|done]. split; [done|]. split; [|lia].
  destruct T as [|t T]; [done|]. intros a Ha.
  apply elem_of_all_items. exists t. split; [left|]. apply Hall; [left|done].
Qed.


(** ** The reductions *)

Lemma key_subseteq_union M X : is_Some (M !! X) → X ⊆ ⋃ (keys M).
Proof.
  intros HX a Ha. apply elem_of_union_list. exists X.
  split; [by apply elem_of_keys|done].
Qed.

(** Climbing from a key through proper supersets of the same count ends,
    at a closed key. *)
Lemma closed_superset_exists M (n : nat) :
  ∀ X (c : Z), M !! X = Some c →
    (size (⋃ (keys M)) - size X ≤ n)%nat →
    ∃ Y, X ⊆ Y ∧ M !! Y = Some c ∧ closed_in M Y c.
Proof.
  induction n as [|n IH]; intros X c HX Hn.
  - exists X. split; [done|]. split; [done|]. intros Y HXY HY.
    apply subset_size in HXY.
    assert (size Y ≤ size (⋃ (keys M)))%nat; [|lia].
    apply subseteq_size, key_subseteq_union. eauto.
  - destruct (decide (Exists (λ Y, X ⊂ Y ∧ M !! Y = Some c) (keys M)))
      as [Hex|Hno].
    + apply Exists_exists in Hex as (Y & _ & HXY & HY).
      destruct (IH Y c HY) as (Z & HYZ & HZ & Hcl).
      { apply subset_size in HXY. lia. }
      exists Z. split; [|done]. destruct HXY as [HXY _]. by etrans.
    + exists X. split; [done|]. split; [done|]. intros Y HXY HY.
      apply Hno, Exists_exists. exists Y.
      split; [apply elem_of_keys; eauto|done].
Qed.

(** Climbing from a key through proper supersets ends, at a maximal key. *)
Lemma maximal_superset_exists M (n : nat) :
  ∀ X, is_Some (M !! X) →
    (size (⋃ (keys M)) - size X ≤ n)%nat →
    ∃ Y, X ⊆ Y ∧ is_Some (M !! Y) ∧ maximal_in M Y.
Proof.
  induction n as [|n IH]; intros X HX Hn.
  - exists X. split; [done|]. split; [done|]. intros Y HXY.
    destruct (M !! Y) as [c|] eqn:HY; [|done]. exfalso.
    apply subset_size in HXY.
    assert (size Y ≤ size (⋃ (keys M)))%nat; [|lia].
    apply subseteq_size, key_subseteq_union. eauto.
  - destruct (decide (Exists (λ Y, X ⊂ Y) (keys M))) as [Hex|Hno].
    + apply Exists_exists in Hex as (Y & HY%elem_of_keys & HXY).
      destruct (IH Y HY) as (Z & HYZ & HZ & Hmax).
      { apply subset_size in HXY. lia. }
      exists Z. split; [|done]. destruct HXY as [HXY _]. by etrans.
    + exists X. split; [done|]. split; [done|]. intros Y HXY.
      destruct (M !! Y) as [c|] eqn:HY; [|done]. exfalso.
      apply Hno, Exists_exists. exists Y.
      split; [apply elem_of_keys; eauto|done].
Qed.

(** X10. The closed map loses no support count: every key of the map given
    to [find_closed_itemsets] is contained in a key of the closed map that
    has the same count. *)
Theorem find_closed_itemsets_lossless M :
  ∃ C, find_closed_itemsets M = Return C
       ∧ ∀ X (c : Z), M !! X = Some c → ∃ Y, X ⊆ Y ∧ C !! Y = Some c.
Proof.
  destruct (find_closed_itemsets_returns M) as (C & Hret & Hspec).
  exists C. split; [done|]. intros X c HX.
  destruct (closed_superset_exists M _ X c HX (Nat.le_refl _))
    as (Y & HXY & HY & Hcl).
  exists Y. split; [done|]. by apply Hspec.
Qed.

(** X11. The maximal itemsets cover the map: every key of the map given to
    [find_maximal_itemsets] is contained in an itemset of the list. *)
Theorem find_maximal_itemsets_cover M :
  ∃ L, find_maximal_itemsets M = Return L
       ∧ ∀ X, is_Some (M !! X) → ∃ Y, Y ∈ L ∧ X ⊆ Y.
Proof.
  destruct (find_maximal_itemsets_returns M) as (L & Hret & _ & Hspec).
  exists L. split; [done|]. intros X HX.
  destruct (maximal_superset_exists M _ X HX (Nat.le_refl _))
    as (Y & HXY & HY & Hmax).
  exists Y. split; [|done]. by apply Hspec.
Qed.

(** X12. The maximal itemsets are pairwise incomparable: none of the list
    of [find_maximal_itemsets] is contained in another one. *)
Theorem find_maximal_itemsets_antichain M :
  ∃ L, find_maximal_itemsets M = Return L
       ∧ ∀ X Y, X ∈ L → Y ∈ L → X ⊆ Y → X = Y.
Proof.
  destruct (find_maximal_itemsets_returns M) as (L & Hret & _ & Hspec).
  exists L. split; [done|]. intros X Y [_ Hmax]%Hspec [[c HY] _]%Hspec HXY.
  destruct (decide (X = Y)) as [|Hne]; [done|]. exfalso.
  assert (HXY' : X ⊂ Y).
  { split; [done|]. intros HYX. apply Hne. by apply (anti_symm (⊆)). }
  by rewrite (Hmax Y HXY') in HY.
Qed.

(** X13. [find_closed_itemsets] is idempotent: on the closed map it
    returns the closed map. *)
Theorem find_closed_itemsets_idempotent M :
  ∃ C, find_closed_itemsets M = Return C
       ∧ find_closed_itemsets C = Return C.
Proof.
  destruct (find_closed_itemsets_returns M) as (C & Hret & Hspec).
  exists C. split; [done|].
  destruct (find_closed_itemsets_returns C) as (C' & -> & Hspec').
  f_equal. apply map_eq. intros X. apply option_eq. intros c.
  rewrite Hspec'. split; [by intros [? _]|]. intros HX. split; [done|].
  intros Y HXY HY. apply Hspec in HX as [_ Hcl]. apply Hspec in HY as [HY _].
  by apply (Hcl Y).
Qed.

(** X14. The maximal itemsets can be taken from the closed map: on it
    [find_maximal_itemsets] lists the same itemsets as on the whole map. *)
Theorem find_maximal_of_closed M :
  ∃ C L L', find_closed_itemsets M = Return C
            ∧ find_maximal_itemsets M = Return L
            ∧ find_maximal_itemsets C = Return L'
            ∧ L' ≡ₚ L.
Proof.
  destruct (find_closed_itemsets_returns M) as (C & HC & HCspec).
  destruct (find_maximal_itemsets_returns M) as (L & HL & Hnd & HLspec).
  destruct (find_maximal_itemsets_returns C) as (L' & HL' & Hnd' & HLspec').
  exists C, L, L'. split; [done|]. split; [done|]. split; [done|].
  apply NoDup_Permutation; [done..|]. intros X.
  rewrite HLspec, HLspec'. split.
  - intros [[c HX] Hmax]. pose proof HX as [HXM _]%HCspec.
    split; [eauto|]. intros Y HXY.
    destruct (M !! Y) as [cy|] eqn:HY; [|done]. exfalso.
    destruct (maximal_superset_exists M _ Y (mk_is_Some _ _ HY)
                (Nat.le_refl _)) as (Z & HYZ & [cz HZ] & HZmax).
    assert (HXZ : X ⊂ Z).
    { destruct HXY as [HXY HnYX]. split; [by etrans|].
      intros HZX. apply HnYX. by etrans. }
    assert (HZC : C !! Z = Some cz).
    { apply HCspec. split; [done|]. by apply maximal_in_closed_in. }
    by rewrite (Hmax Z HXZ) in HZC.
  - intros [[c HX] Hmax]. split.
    + exists c. apply HCspec. split; [done|]. by apply maximal_in_closed_in.
    + intros Y HXY. destruct (C !! Y) as [cy|] eqn:HY; [|done].
      apply HCspec in HY as [HY _]. by rewrite (Hmax Y HXY) in HY.
Qed.

(** ** The pipeline *)

(** X15. The frequent itemsets are the non-empty subsets of the maximal
    ones: on the map of [get_frequent_itemsets], an itemset is a key
    exactly when it is not empty and is contained in an itemset of the list
    of [find_maximal_itemsets]. *)
Theorem frequent_from_maximal T (min_support : Q) :
  ∃ M L, returns T min_support M
         ∧ find_maximal_itemsets M = Return L
         ∧ ∀ X, is_Some (M !! X) ↔ X ≠ ∅ ∧ ∃ Y, Y ∈ L ∧ X ⊆ Y.
Proof.
  destruct (get_frequent_itemsets_spec T min_support) as (M & Hret & Hspec).
  destruct (find_maximal_itemsets_returns M) as (L & HL & _ & HLspec).
  exists M, L. split; [done|]. split; [done|]. intros X. split.
  - intros HX. split.
    + destruct HX as [c [(? & _) _]%Hspec]. done.
    + destruct (maximal_superset_exists M _ X HX (Nat.le_refl _))
        as (Y & HXY & HY & Hmax).
      exists Y. split; [|done]. by apply HLspec.
  - intros [Hne (Y & [[c HY] _]%HLspec & HXY)].
    apply Hspec in HY as [HY _]. exists (support T X). apply Hspec.
    split; [|done]. by eapply frequent_subset.
Qed.

(** X16. The support counts can be read back from the closed map: on the
    map of [get_frequent_itemsets], the count of a key is the count of a
    key of the closed map that contains it, and the largest such count. *)
Theorem support_from_closed T (min_support : Q) :
  ∃ M C, returns T min_support M
         ∧ find_closed_itemsets M = Return C
         ∧ ∀ X (c : Z), M !! X = Some c →
             (∃ Y, X ⊆ Y ∧ C !! Y = Some c)
             ∧ (∀ Y (c' : Z), X ⊆ Y → C !! Y = Some c' → c' ≤ c).
Proof.
  destruct (get_frequent_itemsets_spec T min_support) as (M & Hret & Hspec).
  destruct (find_closed_itemsets_returns M) as (C & HC & HCspec).
  exists M, C. split; [done|]. split; [done|]. intros X c HX. split.
  - destruct (closed_superset_exists M _ X c HX (Nat.le_refl _))
      as (Y & HXY & HY & Hcl).
    exists Y. split; [done|]. by apply HCspec.
  - intros Y c' HXY [HY _]%HCspec.
    apply Hspec in HX as [_ ->]. apply Hspec in HY as [_ ->].
    by apply support_anti.
Qed.

(** X17. In the closed map of the map of [get_frequent_itemsets] the
    counts fall strictly along inclusion: a key that properly contains
    another key has a smaller count. *)
Theorem closed_counts_strict T (min_support : Q) :
  ∃ M C, returns T min_support M
         ∧ find_closed_itemsets M = Return C
         ∧ ∀ X Y (cx cy : Z),
             X ⊂ Y → C !! X = Some cx → C !! Y = Some cy → cy < cx.
Proof.
  destruct (get_frequent_itemsets_spec T min_support) as (M & Hret & Hspec).
  destruct (find_closed_itemsets_returns M) as (C & HC & HCspec).
  exists M, C. split; [done|]. split; [done|].
  intros X Y cx cy HXY [HX Hcl]%HCspec [HY _]%HCspec.
  specialize (Hcl Y HXY).
  apply Hspec in HX as [_ ->]. pose proof HY as [_ ->]%Hspec.
  destruct HXY as [HXY _]. pose proof (support_anti T Y X HXY) as Hanti.
  destruct (decide (support T Y = support T X)) as [Heq|]; [|lia].
  rewrite Heq in HY. done.
Qed.

Lemma support_Permutation T T' X : T ≡ₚ T' → support T X = support T' X.
Proof. intros HT. unfold support. by rewrite HT. Qed.

Lemma all_items_Permutation T T' : T ≡ₚ T' → all_items T = all_items T'.
Proof.
  intros HT. apply set_eq. intros x. rewrite !elem_of_all_items.
  by setoid_rewrite HT.
Qed.

(** X18. The order of the transactions plays no part: on a list of the
    same transactions in another order [get_frequent_itemsets] returns the
    same map. *)
Theorem get_frequent_itemsets_permutation T T' (min_support : Q) :
  T ≡ₚ T' →
  ∃ M, returns T min_support M ∧ returns T' min_support M.
Proof.
  intros HT.
  destruct (get_frequent_itemsets_spec T min_support) as (M & Hret & Hspec).
  destruct (get_frequent_itemsets_spec T' min_support)
    as (M' & Hret' & Hspec').
  exists M. split; [done|]. replace M with M'; [done|].
  apply (frequent_map_unique T
           (min_support_count_of min_support (length T))); [|done].
  intros X c. rewrite Hspec'. unfold frequent.
  by rewrite <- (all_items_Permutation T T' HT),
    <- (support_Permutation T T' X HT), <- (Permutation_length HT).
Qed.

End further_properties.

(** * The data loader *)

(** X19. [get_unique_items] returns the items that occur in a transaction,
    and they are the items of the engine: every key of the map of
    [get_frequent_itemsets] is a set of unique items. *)
Theorem get_unique_items_exact {Item : Type} `{Countable Item}
    (T : list (gset Item)) (min_support : Q) :
  (∀ x, x ∈ get_unique_items T ↔ ∃ t, t ∈ T ∧ x ∈ t)
  ∧ ∃ M, returns T min_support M
         ∧ ∀ X, is_Some (M !! X) → X ⊆ get_unique_items T.
Proof.
  split; [apply elem_of_all_items|].
  destruct (get_frequent_itemsets_spec T min_support) as (M & Hret & Hspec).
  exists M. split; [done|]. intros X [c [(_ & HX & _) _]%Hspec]. done.
Qed.

Section data_loader_facts.
Variable strip : string → string.
Variable split : string → string → list string.
Variable remove_cr : string → string.
Variable contains : string → string → bool.

Lemma list_to_set_nonempty (items : list string) :
  items ≠ [] → (list_to_set items : gset string) ≠ ∅.
Proof.
  destruct items as [|x items]; [done|]. intros _ He.
  assert (x ∈ (∅ : gset string)) as Hx; [|by apply not_elem_of_empty in Hx].
  rewrite <- He. apply elem_of_list_to_set. left.
Qed.

(** ** [_load_item_list] *)

Lemma item_list_row_app (delimiter line : string)
    (transactions : list (gset string)) :
  item_list_row strip split delimiter line transactions
  = transactions ++ item_list_row strip split delimiter line [].
Proof.
  unfold item_list_row. cbv zeta.
  destruct (filter _ _); [by rewrite app_nil_r|done].
Qed.

Lemma item_list_row_new (delimiter line : string) (t : gset string) :
  t ∈ item_list_row strip split delimiter line [] →
  t ≠ ∅ ∧ (EmptyString ∉ t)
  ∧ ∀ item, item ∈ t →
      ∃ cell, cell ∈ split (strip line) delimiter ∧ item = strip cell.
Proof.
  unfold item_list_row. cbv zeta.
  destruct (filter _ _) as [|x items] eqn:Hitems;
    [by intros ?%not_elem_of_nil|].
  rewrite app_nil_l, list_elem_of_singleton. intros ->.
  rewrite <- Hitems. split; [|split].
  - apply list_to_set_nonempty. by rewrite Hitems.
  - rewrite elem_of_list_to_set, list_elem_of_filter. by intros [? _].
  - intros item. rewrite elem_of_list_to_set, list_elem_of_filter.
    intros [_ (cell & -> & ?)%list_elem_of_fmap]. by exists cell.
Qed.

Lemma item_list_row_length (delimiter line : string) :
  (length (item_list_row strip split delimiter line []) ≤ 1)%nat.
Proof.
  unfold item_list_row. cbv zeta. destruct (filter _ _); simpl; lia.
Qed.

(** Without a limit, the loop adds the transaction of each line, in
    order. *)
Lemma item_list_loop_unlimited (delimiter : string) (lines : list string)
    (i : nat) (transactions : list (gset string)) :
  item_list_loop strip split delimiter None lines i transactions
  = transactions
    ++ (lines ≫= λ line, item_list_row strip split delimiter line []).
Proof.
  revert i transactions.
  induction lines as [|line lines IH]; intros i transactions; simpl.
  - by rewrite app_nil_r.
  - rewrite IH, item_list_row_app. by rewrite <- app_assoc.
Qed.

(** With a limit, the loop stops before the line whose number is the
    limit: it reads the lines before it. *)
Lemma item_list_loop_limited (delimiter : string) (limit : Z)
    (lines : list string) (i : nat) (transactions : list (gset string)) :
  item_list_loop strip split delimiter (Some limit) lines i transactions
  = item_list_loop strip split delimiter None
      (take (Z.to_nat (limit - Z.of_nat i)) lines) i transactions.
Proof.
  revert i transactions.
  induction lines as [|line lines IH]; intros i transactions.
  - by rewrite take_nil.
  - cbn [item_list_loop limit_reached]. case_bool_decide as Hlim.
    + replace (Z.to_nat (limit - Z.of_nat i)) with 0%nat by lia. done.
    + replace (Z.to_nat (limit - Z.of_nat i))
        with (S (Z.to_nat (limit - Z.of_nat (S i)))) by lia.
      cbn [take item_list_loop limit_reached]. apply IH.
Qed.

(** X20. No transaction of [_load_item_list] is empty and none holds the
    empty label; every label is a stripped cell of a line of the file. *)
Theorem load_item_list_transactions (file : list string)
    (delimiter : string) (limit : option Z) (header : option bool)
    (t : gset string) :
  t ∈ _load_item_list strip split file delimiter limit header →
  t ≠ ∅ ∧ (EmptyString ∉ t)
  ∧ ∀ item, item ∈ t →
      ∃ line cell, line ∈ file ∧ cell ∈ split (strip line) delimiter
                   ∧ item = strip cell.
Proof.
  unfold _load_item_list. cbv zeta.
  set (lines := if header is Some true then tail file else file).
  assert (Hlines : ∀ line, line ∈ lines → line ∈ file).
  { intros line. unfold lines. destruct header as [[|]|]; [|done..].
    destruct file; [done|]. simpl. by right. }
  assert (Hin : t ∈ item_list_loop strip split delimiter limit lines 0 [] →
                ∃ line, line ∈ lines
                        ∧ t ∈ item_list_row strip split delimiter line []).
  { destruct limit as [limit|].
    - rewrite item_list_loop_limited, item_list_loop_unlimited, app_nil_l.
      intros (line & Hrow & Hline)%list_elem_of_bind. exists line.
      split; [|done]. eapply elem_of_sublist; [done|apply sublist_take].
    - rewrite item_list_loop_unlimited, app_nil_l.
      intros (line & Hrow & Hline)%list_elem_of_bind. by exists line. }
  intros (line & Hline & Ht)%Hin.
  apply item_list_row_new in Ht as (? & ? & Hcells).
  split; [done|]. split; [done|]. intros item (cell & ? & ?)%Hcells.
  exists line, cell. split; [by apply Hlines|done].
Qed.

Lemma item_list_rows_length (delimiter : string) (lines : list string) :
  (length (lines ≫= λ line, item_list_row strip split delimiter line [])
   ≤ length lines)%nat.
Proof.
  induction lines as [|line lines IH]; [done|].
  rewrite bind_cons, length_app. simpl.
  pose proof (item_list_row_length delimiter line). lia.
Qed.

(** X21. The limit of [_load_item_list] counts lines, not transactions:
    with a limit the loader returns what it returns without one on the
    file cut after that many data lines (after the header line, when one
    is skipped), nothing for a limit of 0 or below; so it returns at most
    as many transactions as the limit. *)
Theorem load_item_list_limit (file : list string) (delimiter : string)
    (limit : Z) (header : option bool) :
  _load_item_list strip split file delimiter (Some limit) header
  = _load_item_list strip split
      (take ((if header is Some true then 1 else 0) + Z.to_nat limit) file)
      delimiter None header
  ∧ (limit ≤ 0 →
     _load_item_list strip split file delimiter (Some limit) header = [])
  ∧ (0 ≤ limit →
     Z.of_nat (length (_load_item_list strip split file delimiter
                         (Some limit) header)) ≤ limit).
Proof.
  unfold _load_item_list. cbv zeta.
  set (lines := if header is Some true then tail file else file).
  assert (Hcut : (if header is Some true
                  then tail (take ((if header is Some true then 1 else 0)
                                   + Z.to_nat limit) file)
                  else take ((if header is Some true then 1 else 0)
                             + Z.to_nat limit) file)
                 = take (Z.to_nat limit) lines).
  { unfold lines. destruct header as [[|]|]; [|done..].
    destruct file; simpl; [by rewrite take_nil|done]. }
  rewrite Hcut, item_list_loop_limited, Z.sub_0_r.
  split; [done|]. split.
  - intros Hle. by replace (Z.to_nat limit) with 0%nat by lia.
  - intros Hle. rewrite item_list_loop_unlimited, app_nil_l.
    pose proof (item_list_rows_length delimiter
                  (take (Z.to_nat limit) lines)) as Hlen.
    rewrite length_take in Hlen. lia.
Qed.

(** X22. Without a limit and a header, [_load_item_list] reads a file line
    by line: on two files put end to end it returns the transactions of
    the first followed by those of the second. *)
Theorem load_item_list_app (file1 file2 : list string)
    (delimiter : string) :
  _load_item_list strip split (file1 ++ file2) delimiter None None
  = _load_item_list strip split file1 delimiter None None
    ++ _load_item_list strip split file2 delimiter None None.
Proof.
  unfold _load_item_list. cbv zeta.
  rewrite !item_list_loop_unlimited, !app_nil_l. apply bind_app.
Qed.

(** ** [_load_binary_matrix] *)

Lemma binary_row_items_returns (item_names values : list string)
    (idx : nat) (items : list string) :
  ∃ more, binary_row_items item_names values idx items
          = Return (items ++ more)
          ∧ ∀ name, name ∈ more
              ↔ ∃ j, values !! j = Some "1"%string
                     ∧ item_names !! (idx + j)%nat = Some name.
Proof.
  revert idx items.
  induction values as [|value values IH]; intros idx items; simpl.
  - exists []. rewrite app_nil_r. split; [done|]. intros name. split.
    + by intros ?%not_elem_of_nil.
    + by intros (j & ? & _).
  - destruct (bool_decide (value = "1"%string)
              && bool_decide (idx < length item_names)%nat) eqn:Hcond.
    + apply andb_prop in Hcond as [->%bool_decide_eq_true
                                     Hidx%bool_decide_eq_true].
      destruct (lookup_lt_is_Some_2 item_names idx Hidx) as [name Hname].
      unfold index. rewrite Hname. simpl.
      destruct (IH (S idx) (items ++ [name])) as (more & -> & Hmore).
      exists (name :: more). rewrite <- app_assoc. split; [done|].
      intros name'. rewrite elem_of_cons, Hmore. split.
      * intros [->|(j & ? & Hj)].
        -- exists 0%nat. by rewrite Nat.add_0_r.
        -- exists (S j). split; [done|].
           by replace (idx + S j)%nat with (S idx + j)%nat by lia.
      * intros ([|j] & Hv & Hj).
        -- left. rewrite Nat.add_0_r in Hj. congruence.
        -- right. exists j. split; [done|].
           by replace (S idx + j)%nat with (idx + S j)%nat by lia.
    + destruct (IH (S idx) items) as (more & -> & Hmore).
      exists more. split; [done|]. intros name'. rewrite Hmore. split.
      * intros (j & ? & Hj). exists (S j). split; [done|].
        by replace (idx + S j)%nat with (S idx + j)%nat by lia.
      * intros ([|j] & Hv & Hj).
        -- exfalso. simpl in Hv. injection Hv as ->.
           rewrite Nat.add_0_r in Hj.
           apply andb_false_iff in Hcond as [Hc|Hc];
             apply bool_decide_eq_false in Hc; [done|].
           apply Hc. apply lookup_lt_is_Some. eauto.
        -- exists j. split; [done|].
           by replace (S idx + j)%nat with (idx + S j)%nat by lia.
Qed.

Lemma binary_matrix_loop_unlimited (delimiter : string)
    (item_names lines : list string) (i : nat)
    (transactions : list (gset string)) :
  ∃ more, binary_matrix_loop strip split remove_cr delimiter None
            item_names lines i transactions
          = Return (transactions ++ more)
          ∧ binary_rows strip split remove_cr delimiter item_names lines more.
Proof.
  revert i transactions.
  induction lines as [|line lines IH]; intros i transactions.
  - exists []. rewrite app_nil_r. split; [done|]. split; [done|].
    by intros t ?%not_elem_of_nil.
  - cbn [binary_matrix_loop limit_reached]. cbv zeta.
    case_bool_decide as Hblank.
    + destruct (IH (S i) transactions) as (more & -> & Hlen & Hmore).
      exists more. split; [done|]. split; [simpl; lia|].
      intros t (? & line' & ? & ?)%Hmore. split; [done|].
      exists line'. split; [by right|done].
    + destruct (binary_row_items_returns item_names
                  (map strip (split (remove_cr (strip line)) delimiter))
                  0 []) as (items & -> & Hitems).
      rewrite app_nil_l. simpl.
      destruct items as [|x items].
      * destruct (IH (S i) transactions) as (more & -> & Hlen & Hmore).
        exists more. split; [done|]. split; [simpl; lia|].
        intros t (? & line' & ? & ?)%Hmore. split; [done|].
        exists line'. split; [by right|done].
      * destruct (IH (S i) (transactions ++ [list_to_set (x :: items)]))
          as (more & -> & Hlen & Hmore).
        exists (list_to_set (x :: items) :: more).
        rewrite <- app_assoc. split; [done|]. split; [simpl; lia|].
        intros t [->|Ht]%elem_of_cons.
        -- split; [by apply list_to_set_nonempty|].
           exists line. split; [left|]. intros name.
           rewrite elem_of_list_to_set, Hitems. done.
        -- apply Hmore in Ht as (? & line' & ? & ?). split; [done|].
           exists line'. split; [by right|done].
Qed.

Lemma binary_matrix_loop_limited (delimiter : string) (limit : Z)
    (item_names lines : list string) (i : nat)
    (transactions : list (gset string)) :
  binary_matrix_loop strip split remove_cr delimiter (Some limit)
    item_names lines i transactions
  = binary_matrix_loop strip split remove_cr delimiter None item_names
      (take (Z.to_nat (limit - Z.of_nat i)) lines) i transactions.
Proof.
  revert i transactions.
  induction lines as [|line lines IH]; intros i transactions.
  - by rewrite take_nil.
  - cbn [binary_matrix_loop limit_reached]. case_bool_decide as Hlim.
    + replace (Z.to_nat (limit - Z.of_nat i)) with 0%nat by lia. done.
    + replace (Z.to_nat (limit - Z.of_nat i))
        with (S (Z.to_nat (limit - Z.of_nat (S i)))) by lia.
      cbn [take binary_matrix_loop limit_reached]. cbv zeta.
      case_bool_decide; [apply IH|].
      destruct (binary_row_items _ _ _ _); simpl; [|done..]. apply IH.
Qed.

Lemma load_binary_matrix_transactions_aux (file : list string)
    (delimiter : string) :
  ∃ L, _load_binary_matrix strip split remove_cr file delimiter None
       = Return L
       ∧ (length L ≤ length (tail file))%nat.
Proof.
  unfold _load_binary_matrix. cbv zeta.
  destruct (binary_matrix_loop_unlimited delimiter
              (map strip (split (remove_cr (strip (readline file)))
                            delimiter))
              (tail file) 0 []) as (more & -> & Hlen & _).
  by exists more.
Qed.

(** X23. [_load_binary_matrix] does not raise: it returns transactions
    none of which is empty, each for a line below the header and made of
    the names of the header at the columns where that line has a 1 (a
    column beyond the header counts for nothing), and no more of them than
    lines below the header. *)
Theorem load_binary_matrix_transactions (file : list string)
    (delimiter : string) (limit : option Z) :
  ∃ L, _load_binary_matrix strip split remove_cr file delimiter limit
       = Return L
       ∧ (length L ≤ length (tail file))%nat
       ∧ ∀ t, t ∈ L →
           t ≠ ∅
           ∧ ∃ line, line ∈ tail file
               ∧ ∀ name, name ∈ t
                   ↔ ∃ idx,
                       map strip (split (remove_cr (strip line)) delimiter)
                         !! idx = Some "1"%string
                       ∧ map strip
                           (split (remove_cr (strip (readline file)))
                              delimiter) !! idx = Some name.
Proof.
  unfold _load_binary_matrix. cbv zeta.
  set (item_names := map strip (split (remove_cr (strip (readline file)))
                                  delimiter)).
  destruct limit as [limit|].
  - rewrite binary_matrix_loop_limited.
    destruct (binary_matrix_loop_unlimited delimiter item_names
                (take (Z.to_nat (limit - Z.of_nat 0)) (tail file)) 0 [])
      as (more & -> & Hlen & Hmore).
    exists more. split; [done|]. split.
    + rewrite length_take in Hlen. lia.
    + intros t (? & line & Hline & Hrow)%Hmore. split; [done|].
      exists line. split; [|done].
      eapply elem_of_sublist; [done|apply sublist_take].
  - destruct (binary_matrix_loop_unlimited delimiter item_names
                (tail file) 0 []) as (more & -> & Hlen & Hmore).
    exists more. split; [done|]. split; [done|].
    intros t (? & line & Hline & Hrow)%Hmore. split; [done|].
    by exists line.
Qed.

(** X24. The limit of [_load_binary_matrix] counts the lines below the
    header, blank ones included: with a limit the loader returns what it
    returns without one on the file cut after the header and that many
    lines, which is at most as many transactions as the limit. *)
Theorem load_binary_matrix_limit (file : list string) (delimiter : string)
    (limit : Z) :
  _load_binary_matrix strip split remove_cr file delimiter (Some limit)
  = _load_binary_matrix strip split remove_cr
      (take (1 + Z.to_nat limit) file) delimiter None
  ∧ ∃ L, _load_binary_matrix strip split remove_cr file delimiter
           (Some limit) = Return L
         ∧ (limit ≤ 0 → L = [])
         ∧ (0 ≤ limit → Z.of_nat (length L) ≤ limit).
Proof.
  assert (Hcut : _load_binary_matrix strip split remove_cr file delimiter
                   (Some limit)
                 = _load_binary_matrix strip split remove_cr
                     (take (1 + Z.to_nat limit) file) delimiter None).
  { unfold _load_binary_matrix. cbv zeta.
    rewrite binary_matrix_loop_limited, Z.sub_0_r.
    destruct file as [|first rest]; simpl; [by rewrite take_nil|done]. }
  split; [done|]. rewrite Hcut.
  destruct (load_binary_matrix_transactions_aux
              (take (1 + Z.to_nat limit) file) delimiter)
    as (L & -> & Hlen).
  exists L. split; [done|].
  assert (Hlen' : (length L ≤ Z.to_nat limit)%nat).
  { etrans; [exact Hlen|]. destruct file as [|first rest]; [simpl; lia|].
    simpl. rewrite length_take. lia. }
  split.
  - intros Hle. destruct L; [done|]. simpl in Hlen'. lia.
  - lia.
Qed.

(** ** [load_transactions] *)

Lemma item_list_summary (file : list string) (delimiter : string)
    (limit : option Z) (header : option bool) :
  (∀ t, t ∈ _load_item_list strip split file delimiter limit header →
        t ≠ ∅)
  ∧ (length (_load_item_list strip split file delimiter limit header)
     ≤ length file)%nat
  ∧ ∀ l, limit = Some l →
      Z.of_nat (length (_load_item_list strip split file delimiter limit
                          header)) ≤ Z.max 0 l.
Proof.
  unfold _load_item_list. cbv zeta.
  set (lines := if header is Some true then tail file else file).
  assert (Hlines : (length lines ≤ length file)%nat).
  { unfold lines. destruct header as [[|]|]; [|done..].
    destruct file; simpl; lia. }
  assert (Hrows : ∀ lines' : list string, ∀ t,
    t ∈ (lines' ≫= λ line, item_list_row strip split delimiter line []) →
    t ≠ ∅).
  { intros lines' t (line & Ht & _)%list_elem_of_bind.
    by apply item_list_row_new in Ht as (? & _). }
  destruct limit as [limit|].
  - rewrite item_list_loop_limited, item_list_loop_unlimited, app_nil_l.
    pose proof (item_list_rows_length delimiter
                  (take (Z.to_nat (limit - Z.of_nat 0)) lines)) as Hlen.
    rewrite length_take in Hlen.
    split; [apply Hrows|]. split; [lia|]. intros l [= <-]. lia.
  - rewrite item_list_loop_unlimited, app_nil_l.
    pose proof (item_list_rows_length delimiter lines) as Hlen.
    split; [apply Hrows|]. split; [lia|]. by intros l.
Qed.

Lemma binary_matrix_summary (file : list string) (delimiter : string)
    (limit : option Z) :
  ∃ L, _load_binary_matrix strip split remove_cr file delimiter limit
       = Return L
       ∧ (∀ t, t ∈ L → t ≠ ∅)
       ∧ (length L ≤ length file)%nat
       ∧ ∀ l, limit = Some l → Z.of_nat (length L) ≤ Z.max 0 l.
Proof.
  unfold _load_binary_matrix. cbv zeta.
  set (item_names := map strip (split (remove_cr (strip (readline file)))
                                  delimiter)).
  assert (Htail : (length (tail file) ≤ length file)%nat).
  { destruct file; simpl; lia. }
  destruct limit as [limit|].
  - rewrite binary_matrix_loop_limited.
    destruct (binary_matrix_loop_unlimited delimiter item_names
                (take (Z.to_nat (limit - Z.of_nat 0)) (tail file)) 0 [])
      as (more & -> & Hlen & Hmore).
    rewrite length_take in Hlen.
    exists more. split; [done|]. split; [|split].
    + by intros t (? & _)%Hmore.
    + lia.
    + intros l [= <-]. lia.
  - destruct (binary_matrix_loop_unlimited delimiter item_names
                (tail file) 0 []) as (more & -> & Hlen & Hmore).
    exists more. split; [done|]. split; [|split].
    + by intros t (? & _)%Hmore.
    + lia.
    + by intros l.
Qed.

(** X25. On a file that can be read, [load_transactions] does not raise,
    whichever format it detects: it returns transactions none of which is
    empty, no more of them than the file has lines and, with a limit, no
    more than the limit (none for a limit of 0 or below). *)
Theorem load_transactions_returns (file : list string) (limit : option Z)
    (header : option bool) :
  ∃ L, load_transactions strip split remove_cr contains file limit header
       = Return L
       ∧ (∀ t, t ∈ L → t ≠ ∅)
       ∧ (length L ≤ length file)%nat
       ∧ ∀ l, limit = Some l → Z.of_nat (length L) ≤ Z.max 0 l.
Proof.
  unfold load_transactions. cbv zeta.
  destruct (_detect_binary_format _ _ _ _).
  - apply binary_matrix_summary.
  - eexists. split; [done|]. apply item_list_summary.
Qed.

End data_loader_facts.

(** * Concrete runs *)

(** Scenario A of the specification, threshold count 2: five frequent
    itemsets, of which [{c}] is not closed ([{b, c}] has its support) and
    [{a, b}] and [{b, c}] are maximal. *)
Example scenario_a_frequent :
  get_frequent_itemsets 2 scenario_a (1 # 2)
  = Return (list_to_map
              [ ({["a"]}, 3); ({["b"]}, 3); ({["c"]}, 2);
                ({["a"; "b"]}, 2); ({["b"; "c"]}, 2) ]%string).
Proof. compute_done. Qed.

Example scenario_a_closed :
  (M ← get_frequent_itemsets 2 scenario_a (1 # 2); find_closed_itemsets M)
  = Return (list_to_map
              [ ({["a"]}, 3); ({["b"]}, 3);
                ({["a"; "b"]}, 2); ({["b"; "c"]}, 2) ]%string).
Proof. compute_done. Qed.

Example scenario_a_maximal :
  (M ← get_frequent_itemsets 2 scenario_a (1 # 2);
   L ← find_maximal_itemsets M; Return (list_to_set L : gset (gset string)))
  = Return {[ {["a"; "b"]}; {["b"; "c"]} ]}%string.
Proof. compute_done. Qed.

(** One loop iteration is not enough for scenario A: the fuel runs out. *)
Example scenario_a_fuel :
  get_frequent_itemsets 1 scenario_a (1 # 2) = OutOfFuel.
Proof. compute_done. Qed.

(** Scenario C: one item in every transaction. *)
Example scenario_c :
  (M ← get_frequent_itemsets 1 [ {["x"]}; {["x"]}; {["x"]} ]%string 1;
   C ← find_closed_itemsets M; L ← find_maximal_itemsets M;
   Return (M, C, L))
  = Return ({[ {["x"]} := 3 ]}, {[ {["x"]} := 3 ]}, [ {["x"]} ])%string.
Proof. compute_done. Qed.

(** Scenario D: no two items occur together; threshold count
    [int(0.34 * 3) = 1]. The pairs are candidates and are counted, but
    none reaches the threshold. *)
Example scenario_d :
  get_frequent_itemsets 2 [ {["a"]}; {["b"]}; {["c"]} ]%string (34 # 100)
  = Return (list_to_map [ ({["a"]}, 1); ({["b"]}, 1); ({["c"]}, 1) ]%string).
Proof. compute_done. Qed.

(** The run on [disjoint_pair] at [min_support = 0.4]. *)
Example disjoint_pair_run :
  get_frequent_itemsets 2 disjoint_pair (2 # 5)
  = Return (list_to_map
              [ ({["a"]}, 1); ({["b"]}, 1); ({["a"; "b"]}, 0) ]%string).
Proof. compute_done. Qed.

(** The float [0.3] lies below 3/10, and ten times it rounds to [3.0]:
    the threshold count is 3, one more than the floor of the exact
    product, and [{a}], in two of the ten transactions, is not reported. *)
Example three_tenths_of_ten :
  (float_literal (3 # 10) == 5404319552844595 # 18014398509481984)%Q
  ∧ (float_mul (float_literal (3 # 10)) (float_of_int 10) == 3)%Q
  ∧ min_support_count_of (float_literal (3 # 10)) 10 = 3
  ∧ Qfloor (float_literal (3 # 10) * 10) = 2.
Proof. repeat split; by vm_compute. Qed.

Example two_a_eight_b_run :
  get_frequent_itemsets 1 two_a_eight_b (float_literal (3 # 10))
  = Return {[ {["b"]}%string := 8 ]}.
Proof. compute_done. Qed.

(** Three times the float [1/3] rounds to [1.0]. *)
Example one_third_of_three :
  (float_literal (1 # 3) == 6004799503160661 # 18014398509481984)%Q
  ∧ min_support_count_of (float_literal (1 # 3)) 3 = 1
  ∧ Qfloor (float_literal (1 # 3) * 3) = 0.
Proof. repeat split; by vm_compute. Qed.

(** A hundred times the float [0.57] stays below 57: the threshold count
    is 56. *)
Example fifty_seven_hundredths :
  min_support_count_of (float_literal (57 # 100)) 100 = 56
  ∧ Qfloor ((57 # 100) * 100) = 57.
Proof. repeat split; by vm_compute. Qed.

(** Scenario D at the float that [0.34] denotes. *)
Example scenario_d_float :
  get_frequent_itemsets 2 [ {["a"]}; {["b"]}; {["c"]} ]%string
    (float_literal (34 # 100))
  = Return (list_to_map [ ({["a"]}, 1); ({["b"]}, 1); ({["c"]}, 1) ]%string).
Proof. compute_done. Qed.

(** From 2^53 on an integer need not be a float: [float(2 ** 53 + 3)] is
    [2 ** 53 + 4]. *)
Example float_of_large_int :
  (float_of_int (2 ^ 53 + 3) == inject_Z (2 ^ 53 + 4))%Q.
Proof. by vm_compute. Qed.

(** The rounding against the floats of the machine, on some literals
    [a / b] and integers [n]. *)
Example binary64_round_machine :
  forallb machine_agrees
    [ (3, 10, 10); (1, 3, 3); (34, 100, 3); (2, 5, 2); (1, 2, 4);
      (57, 100, 100); (7, 10, 3); (1, 10, 3); (29, 100, 100);
      (999, 1000, 1000000); (1, 3, 2 ^ 53 + 3); (2, 3, 2 ^ 60 + 12345);
      (5, 7, 0); (1, 1, 9007199254740993) ]
  = true.
Proof. by vm_compute. Qed.

(** C4, at the two single itemsets [{a}] and [{b}] and size 2. *)
Lemma generate_candidates_exact_witness :
  (2 ≤ 2)%nat
  ∧ ((∀ c : gset string,
        c ∈ generate_candidates pair_of_singletons 2
        ↔ size c = 2%nat
          ∧ ∀ Y, Y ⊆ c → size Y = (2 - 1)%nat → Y ∈ pair_of_singletons)
     ∧ NoDup (elements (generate_candidates pair_of_singletons 2))
     ∧ ((size pair_of_singletons < 2)%nat →
        generate_candidates pair_of_singletons 2 = ∅)).
Proof.
  split; [lia|]. apply (generate_candidates_exact pair_of_singletons 2). lia.
Defined.

(** C8, on scenario A at [min_support] 0.25 and 0.5. *)
Lemma threshold_monotone_witness :
  ((1 # 4) < (1 # 2))%Q
  ∧ ∃ M1 M2 : gmap (gset string) Z,
      returns scenario_a (1 # 4) M1
      ∧ returns scenario_a (1 # 2) M2
      ∧ (∀ X, is_Some (M2 !! X) → is_Some (M1 !! X))
      ∧ (∀ X (c1 c2 : Z), M1 !! X = Some c1 → M2 !! X = Some c2 → c1 = c2).
Proof.
  split; [reflexivity|].
  apply (threshold_monotone scenario_a (1 # 4) (1 # 2)). reflexivity.
Defined.

(** C10. On the two transactions [{a}] and [{b}] with [min_support = 0.4],
    inside the valid range, the product is 0.8 and the threshold is 0: the
    map returned has the key [{a, b}], an itemset that no transaction
    contains, with the count 0. This holds at the rational 2/5 and at the
    float that [0.4] denotes. *)
Theorem zero_support_itemset_reported :
  disjoint_pair ≠ []
  ∧ (0 < (2 # 5))%Q ∧ ((2 # 5) <= 1)%Q
  ∧ ((2 # 5) * inject_Z (Z.of_nat (length disjoint_pair)) < 1)%Q
  ∧ min_support_count_of (2 # 5) (length disjoint_pair) = 0
  ∧ support disjoint_pair {["a"; "b"]}%string = 0
  ∧ (∃ M, returns disjoint_pair (2 # 5) M
          ∧ M !! ({["a"; "b"]}%string : gset string) = Some 0)
  ∧ (0 < float_literal (2 # 5))%Q ∧ (float_literal (2 # 5) <= 1)%Q
  ∧ min_support_count_of (float_literal (2 # 5)) (length disjoint_pair) = 0
  ∧ ∃ M, returns disjoint_pair (float_literal (2 # 5)) M
         ∧ M !! ({["a"; "b"]}%string : gset string) = Some 0.
Proof.
  split; [done|]. split; [reflexivity|]. split; [by compute|].
  split; [reflexivity|]. split; [by vm_compute|]. split; [compute_done|].
  split; [|split; [by vm_compute|split; [by vm_compute|split;
                                          [by vm_compute|]]]].
  - destruct (zero_threshold_reports_all disjoint_pair (2 # 5))
      as (M & Hret & Hall); [by vm_compute|].
    exists M. split; [done|].
    rewrite (Hall {["a"; "b"]}%string); [f_equal|..]; compute_done.
  - destruct (zero_threshold_reports_all disjoint_pair (float_literal (2 # 5)))
      as (M & Hret & Hall); [by vm_compute|].
    exists M. split; [done|].
    rewrite (Hall {["a"; "b"]}%string); [f_equal|..]; compute_done.
Qed.

(** The loaders on ASCII files. A line of cells that are all blank gives no
    transaction; the limit counts it all the same. *)
Example item_list_file_loaded :
  load_transactions ascii_strip ascii_split ascii_remove_cr ascii_contains
    item_list_file None None
  = Return [ {["a"; "b"]}; {["b"; "c"]}; {["a"]} ]%string.
Proof. compute_done. Qed.

Example item_list_file_limited :
  load_transactions ascii_strip ascii_split ascii_remove_cr ascii_contains
    item_list_file (Some 2) None
  = Return [ {["a"; "b"]} ]%string.
Proof. compute_done. Qed.

(** In the binary matrix the row without a 1 gives no transaction and the
    fourth column of the last row has no name. *)
Example binary_matrix_file_loaded :
  load_transactions ascii_strip ascii_split ascii_remove_cr ascii_contains
    binary_matrix_file None None
  = Return [ {["a"; "b"]}; {["b"; "c"]} ]%string.
Proof. compute_done. Qed.

(** X4, at the single itemsets [{a}] and [{b}], with [{c}] added. *)
Lemma generate_candidates_mono_witness :
  (2 ≤ 2)%nat
  ∧ pair_of_singletons ⊆ {[ {["c"%string]} ]} ∪ pair_of_singletons
  ∧ generate_candidates pair_of_singletons 2
    ⊆ generate_candidates ({[ {["c"%string]} ]} ∪ pair_of_singletons) 2.
Proof.
  assert (Hsub : pair_of_singletons
                 ⊆ {[ {["c"%string]} ]} ∪ pair_of_singletons)
    by apply union_subseteq_r.
  split; [lia|]. split; [exact Hsub|].
  apply (generate_candidates_mono pair_of_singletons _ 2); [lia|exact Hsub].
Defined.

(** X8, on [disjoint_pair] at [min_support = 0.4], threshold count 0. *)
Lemma nonpositive_threshold_all_frequent_witness :
  min_support_count_of (2 # 5) (length disjoint_pair) ≤ 0
  ∧ ∃ M, returns disjoint_pair (2 # 5) M
         ∧ ∀ (X : gset string) (c : Z),
             M !! X = Some c
             ↔ X ≠ ∅ ∧ X ⊆ all_items disjoint_pair
               ∧ c = support disjoint_pair X.
Proof.
  assert (Hthr : min_support_count_of (2 # 5) (length disjoint_pair) ≤ 0)
    by (by vm_compute).
  split; [exact Hthr|].
  apply (nonpositive_threshold_all_frequent disjoint_pair (2 # 5) Hthr).
Defined.

(** X9, on scenario A at [min_support = 0.5]. *)
Lemma accepted_min_support_threshold_witness :
  (0 < (1 # 2))%Q ∧ ((1 # 2) <= 1)%Q
  ∧ Z.of_nat (length scenario_a) < 2 ^ 53
  ∧ (0 ≤ min_support_count_of (1 # 2) (length scenario_a)
     ≤ Z.of_nat (length scenario_a)
     ∧ ∃ M, returns scenario_a (1 # 2) M
            ∧ ∀ X : gset string, X ≠ ∅ → scenario_a ≠ [] →
                (∀ t, t ∈ scenario_a → X ⊆ t) →
                M !! X = Some (Z.of_nat (length scenario_a))).
Proof.
  assert (Hpos : (0 < (1 # 2))%Q) by reflexivity.
  assert (Hle : ((1 # 2) <= 1)%Q) by (by vm_compute).
  assert (Hsmall : Z.of_nat (length scenario_a) < 2 ^ 53) by reflexivity.
  split; [exact Hpos|]. split; [exact Hle|]. split; [exact Hsmall|].
  apply (accepted_min_support_threshold scenario_a (1 # 2) Hpos Hle Hsmall).
Defined.


(** X18, on scenario A and its transactions in the reverse order. *)
Lemma get_frequent_itemsets_permutation_witness :
  scenario_a ≡ₚ reverse scenario_a
  ∧ ∃ M, returns scenario_a (1 # 2) M
         ∧ returns (reverse scenario_a) (1 # 2) M.
Proof.
  assert (Hperm : scenario_a ≡ₚ reverse scenario_a)
    by (symmetry; apply reverse_Permutation).
  split; [exact Hperm|].
  apply (get_frequent_itemsets_permutation _ _ (1 # 2) Hperm).
Defined.

(** X20, at the first transaction of [item_list_file]. *)
Lemma load_item_list_transactions_witness :
  ({["a"; "b"]}%string : gset string)
    ∈ _load_item_list ascii_strip ascii_split item_list_file "," None None
  ∧ (({["a"; "b"]}%string : gset string) ≠ ∅
     ∧ (EmptyString ∉ ({["a"; "b"]}%string : gset string))
     ∧ ∀ item, item ∈ ({["a"; "b"]}%string : gset string) →
         ∃ line cell, line ∈ item_list_file
                      ∧ cell ∈ ascii_split (ascii_strip line) ","
                      ∧ item = ascii_strip cell).
Proof.
  assert (Hin : ({["a"; "b"]}%string : gset string)
                  ∈ _load_item_list ascii_strip ascii_split item_list_file
                      "," None None) by compute_done.
  split; [exact Hin|].
  apply (load_item_list_transactions ascii_strip ascii_split
           item_list_file "," None None _ Hin).
Defined.
